(** * gts-kit: entity registry, validation orchestrator and source position locator

    A shallow embedding of
    - [packages/shared/src/registry.ts] (class [JsonRegistry]) and
    - the diagnostics module of the editor extension ([findErrorPosition] and
      its helpers, [validateOpenDocument]),
    followed by the properties of the specification that concern them.

    JavaScript strings are sequences of UTF-16 code units: a string is a
    [list N], an offset into it a [nat].  JavaScript [Map]s are [gmap]s; the
    iteration order of a [Map] is not represented, and no statement below
    depends on it. *)

From Stdlib Require Import ZArith NArith Ascii String Decimal.
From stdpp Require Import gmap strings list fin_maps.

Open Scope N_scope.
Open Scope nat_scope.

(** ** JavaScript strings *)

Abbreviation jsstring := (list N).

(** The string constant written [s] in the source. *)
Fixpoint js (s : string) : jsstring :=
  match s with
  | EmptyString => []
  | String c r => N_of_ascii c :: js r
  end.

Definition chr (c : ascii) : N := N_of_ascii c.

Definition LBRACE : N := chr "{".
Definition RBRACE : N := chr "}".
Definition LBRACKET : N := chr "[".
Definition RBRACKET : N := chr "]".
Definition DQUOTE : N := 34%N.
Definition SQUOTE : N := chr "'".
Definition BACKSLASH : N := chr "\".
Definition SLASH : N := chr "/".
Definition COLON : N := chr ":".
Definition DOT : N := chr ".".

(** [\d] *)
Definition is_digit (c : N) : bool := (48 <=? c)%N && (c <=? 57)%N.

(** [\s] of ECMAScript: the white space and line terminator code units. *)
Definition is_space (c : N) : bool :=
  ((9 <=? c)%N && (c <=? 13)%N) || (c =? 32)%N || (c =? 160)%N || (c =? 5760)%N
  || ((8192 <=? c)%N && (c <=? 8202)%N) || (c =? 8232)%N || (c =? 8233)%N
  || (c =? 8239)%N || (c =? 8287)%N || (c =? 12288)%N || (c =? 65279)%N.

(** The class of the double and the single quote. *)
Definition is_quote (c : N) : bool := (c =? DQUOTE)%N || (c =? SQUOTE)%N.

(** Any unit but the double quote. *)
Definition not_dquote (c : N) : bool := negb (c =? DQUOTE)%N.

(** [s.substring(a, b)] for [a <= b], the only way the source calls it. *)
Definition substring (a b : nat) (s : jsstring) : jsstring :=
  take (b - a) (drop a s).

(** [s.startsWith(p)] *)
Fixpoint startsWith (p s : jsstring) : bool :=
  match p, s with
  | [], _ => true
  | _ :: _, [] => false
  | a :: p', b :: s' => (a =? b)%N && startsWith p' s'
  end.

(** [s.replace(/^\//, '')] *)
Definition stripLeadingSlash (s : jsstring) : jsstring :=
  match s with
  | c :: r => if (c =? SLASH)%N then r else s
  | [] => []
  end.

(** [s.replace(/\/$/, '')] *)
Fixpoint stripTrailingSlash (s : jsstring) : jsstring :=
  match s with
  | [] => []
  | [c] => if (c =? SLASH)%N then [] else [c]
  | c :: r => c :: stripTrailingSlash r
  end.

(** [s.split('/')] *)
Fixpoint splitSlash (s : jsstring) : list jsstring :=
  match s with
  | [] => [[]]
  | c :: r =>
      if (c =? SLASH)%N then [] :: splitSlash r
      else match splitSlash r with
           | seg :: segs => (c :: seg) :: segs
           | [] => [[c]]
           end
  end.

(** [segs.join('/')] *)
Fixpoint joinSlash (segs : list jsstring) : jsstring :=
  match segs with
  | [] => []
  | [seg] => seg
  | seg :: rest => seg ++ SLASH :: joinSlash rest
  end.

(** [/^\d+$/.test(s)] *)
Definition isIndexSegment (s : jsstring) : bool :=
  match s with
  | [] => false
  | _ => forallb is_digit s
  end.

(** [parseInt(s, 10)] on a string of decimal digits. *)
Definition parseInt (s : jsstring) : nat :=
  fold_left (fun acc c => 10 * acc + (N.to_nat c - 48)) s 0.

(** The decimal numeral of a non-negative integer, as a template literal
    prints it. *)
Fixpoint uintDigits (d : uint) : jsstring :=
  match d with
  | Nil => []
  | D0 r => 48%N :: uintDigits r
  | D1 r => 49%N :: uintDigits r
  | D2 r => 50%N :: uintDigits r
  | D3 r => 51%N :: uintDigits r
  | D4 r => 52%N :: uintDigits r
  | D5 r => 53%N :: uintDigits r
  | D6 r => 54%N :: uintDigits r
  | D7 r => 55%N :: uintDigits r
  | D8 r => 56%N :: uintDigits r
  | D9 r => 57%N :: uintDigits r
  end.

Definition decimal (n : nat) : jsstring := uintDigits (Nat.to_uint n).

(** ** The regular expressions of the source

    Every pattern the source builds is a concatenation of literals, one-unit
    classes and greedy starred classes.  [matchHere] is the backtracking
    matcher of ECMAScript on that fragment: a star first tries to take one
    more unit and gives it back when the rest of the pattern fails. *)

Inductive atom :=
| Lit (c : N)
| Any (p : N -> bool)
| Star (p : N -> bool).

(** The pattern of a literal; [new RegExp(escapeRegex(s))] denotes it, since
    [escapeRegex] puts a backslash before each unit that the pattern syntax
    would read as an operator. *)
Definition literal (s : jsstring) : list atom := map Lit s.

(** A greedy star over the class [p], [k] matching the rest of the pattern. *)
Fixpoint matchStar (p : N -> bool) (k : jsstring -> option nat) (t : jsstring)
    : option nat :=
  match t with
  | x :: t' =>
      if p x then
        match matchStar p k t' with
        | Some n => Some (S n)
        | None => k t
        end
      else k t
  | [] => k []
  end.

Fixpoint matchHere (pat : list atom) : jsstring -> option nat :=
  match pat with
  | [] => fun _ => Some 0
  | Lit c :: r => fun t =>
      match t with
      | x :: t' => if (x =? c)%N then S <$> matchHere r t' else None
      | [] => None
      end
  | Any p :: r => fun t =>
      match t with
      | x :: t' => if p x then S <$> matchHere r t' else None
      | [] => None
      end
  | Star p :: r => matchStar p (matchHere r)
  end.

(** [pattern.exec(text)] from [lastIndex = 0] (and [text.match(pattern)]
    without the [g] flag): the index of the leftmost match and its length. *)
Fixpoint execFrom (pat : list atom) (t : jsstring) (i : nat) : option (nat * nat) :=
  match matchHere pat t with
  | Some n => Some (i, n)
  | None =>
      match t with
      | [] => None
      | _ :: t' => execFrom pat t' (S i)
      end
  end.

Definition exec (pat : list atom) (t : jsstring) : option (nat * nat) :=
  execFrom pat t 0.

(** A quote, the key, a quote, [\s*] and a colon. *)
Definition keyPattern (key : jsstring) : list atom :=
  Any is_quote :: literal key ++ [Any is_quote; Star is_space; Lit COLON].

(** The same followed by [\s*] and an opening brace. *)
Definition objectKeyPattern (key : jsstring) : list atom :=
  keyPattern key ++ [Star is_space; Lit LBRACE].

(** The quoted word type, [\s*:\s*] and the quoted value. *)
Definition typeValuePattern (value : jsstring) : list atom :=
  Lit DQUOTE :: literal (js "type") ++ [Lit DQUOTE; Star is_space; Lit COLON; Star is_space; Lit DQUOTE]
  ++ literal value ++ [Lit DQUOTE].

(** The quoted field name, [\s*:\s*] and a non-empty double-quoted string
    without a double quote inside: the two patterns of [findNthObjectInArray]. *)
Definition stringFieldPattern (field : string) : list atom :=
  Lit DQUOTE :: literal (js field)
  ++ [Lit DQUOTE; Star is_space; Lit COLON; Star is_space; Lit DQUOTE;
      Any not_dquote; Star not_dquote; Lit DQUOTE].

(** [/\{/] *)
Definition bracePattern : list atom := [Lit LBRACE].

(** ** The text document of the host editor

    [vscode.TextDocument] belongs to the host editor, not to this
    repository.  The model follows its documented contract: lines end at
    LF, CR LF or CR; [positionAt] clamps the offset to the text and never
    yields a position inside a line terminator; [offsetAt] clamps the
    character to the line. *)

Record Position := mkPosition { line : nat; character : nat }.

Record Range := mkRange { start : Position; end_ : Position }.

(** [pos.translate(lineDelta, characterDelta)] with non-negative deltas. *)
Definition translate (pos : Position) (dl dc : nat) : Position :=
  mkPosition (line pos + dl) (character pos + dc).

Fixpoint positionFrom (t : jsstring) (offset ln col : nat) : Position :=
  match offset with
  | 0 => mkPosition ln col
  | S offset' =>
      match t with
      | [] => mkPosition ln col
      | c :: t' =>
          if (c =? 13)%N then
            match t', offset' with
            | c' :: t'', S offset'' =>
                if (c' =? 10)%N then positionFrom t'' offset'' (S ln) 0
                else positionFrom t' offset' (S ln) 0
            | c' :: _, 0 =>
                if (c' =? 10)%N then mkPosition ln col else mkPosition (S ln) 0
            | [], _ => mkPosition (S ln) 0
            end
          else if (c =? 10)%N then positionFrom t' offset' (S ln) 0
          else positionFrom t' offset' ln (S col)
      end
  end.

(** [document.positionAt(offset)] *)
Definition positionAt (text : jsstring) (offset : nat) : Position :=
  positionFrom text offset 0 0.

Fixpoint offsetFrom (t : jsstring) (ln col : nat) (acc : nat) : nat :=
  match t with
  | [] => acc
  | c :: t' =>
      match ln with
      | 0 =>
          match col with
          | 0 => acc
          | S col' =>
              if (c =? 13)%N || (c =? 10)%N then acc
              else offsetFrom t' 0 col' (S acc)
          end
      | S ln' =>
          if (c =? 13)%N then
            match t' with
            | c' :: t'' =>
                if (c' =? 10)%N then offsetFrom t'' ln' col (S (S acc))
                else offsetFrom t' ln' col (S acc)
            | [] => S acc
            end
          else if (c =? 10)%N then offsetFrom t' ln' col (S acc)
          else offsetFrom t' ln col (S acc)
      end
  end.

(** [document.offsetAt(position)] *)
Definition offsetAt (text : jsstring) (pos : Position) : nat :=
  offsetFrom text (line pos) (character pos) 0.

(** ** Validation errors *)

(** JSON values: the parsed content of a file, and what a parameter bag
    holds.  A file that failed to parse is carried as its raw text, a
    [JStr]. *)
#[local] Unset Elimination Schemes.
Inductive Json :=
| JNull
| JBool (b : bool)
| JNum (z : Z)
| JStr (s : jsstring)
| JArr (items : list Json)
| JObj (fields : list (jsstring * Json)).
#[local] Set Elimination Schemes.

(** [ValidationError] of the shared package. *)
Record ValidationError := mkError {
  instancePath : jsstring;
  schemaPath : jsstring;
  keyword : jsstring;
  message : jsstring;
  params : list (jsstring * Json);
  data : option Json
}.

(** [params[key]], [undefined] being [None]. *)
Fixpoint param (key : jsstring) (ps : list (jsstring * Json)) : option Json :=
  match ps with
  | [] => None
  | (k, v) :: rest => if decide (k = key) then Some v else param key rest
  end.

(** [key in params] *)
Definition hasParam (key : jsstring) (ps : list (jsstring * Json)) : bool :=
  match param key ps with Some _ => true | None => false end.

(** A parameter read as a string, as the locator does with [schemaId],
    [additionalProperty] and [missingProperty]. *)
Definition paramString (key : jsstring) (ps : list (jsstring * Json)) : option jsstring :=
  match param key ps with
  | Some (JStr s) => Some s
  | _ => None
  end.

(** [keyword === k] *)
Definition keywordIs (e : ValidationError) (k : string) : bool :=
  bool_decide (keyword e = js k).

(** ** The source position locator

    A [vscode.TextDocument] is used through [getText], [positionAt] and
    [offsetAt] only: the parameter [document] below is the text it holds. *)

(** [new Range(pos, pos.translate(0, 1))] with
    [pos = document.positionAt(offset)]: the one-character range at [offset]. *)
Definition braceRange (document : jsstring) (offset : nat) : Range :=
  let pos := positionAt document offset in
  mkRange pos (translate pos 0 1).

(** [new Range(document.positionAt(offset + 1),
    document.positionAt(offset + 1 + len))]: the range of a key of [len]
    units whose opening quote is at [offset]. *)
Definition keyRange (document : jsstring) (offset len : nat) : Range :=
  mkRange (positionAt document (offset + 1)) (positionAt document (offset + 1 + len)).

(** [while (pos < text.length && /\s/.test(text[pos])) pos++] *)
Fixpoint skipSpaces (t : jsstring) : nat :=
  match t with
  | c :: t' => if is_space c then S (skipSpaces t') else 0
  | [] => 0
  end.

(** [findTypeFieldByValue] *)
Definition findTypeFieldByValue (text document : jsstring) (typeValue : jsstring)
    : option Range :=
  match exec (typeValuePattern typeValue) text with
  | Some (index, _) =>
      Some (mkRange (positionAt document (index + 1)) (positionAt document (index + 5)))
  | None => None
  end.

(** What [findNthObjectInArray] does once the opening brace of the target
    object is reached at offset [i] (where [currentObjectStart = i]). *)
Definition targetObjectRange (text document : jsstring) (i : nat) (highlightBrace : bool)
    : Range :=
  let currentObjectStart := i in
  let objectText := substring currentObjectStart (i + 1) text in
  if highlightBrace then braceRange document currentObjectStart
  else match exec (stringFieldPattern "id") objectText with
       | Some (index, _) =>
           mkRange (positionAt document (currentObjectStart + index + 1))
                   (positionAt document (currentObjectStart + index + 3))
       | None =>
           match exec (stringFieldPattern "type") objectText with
           | Some (index, _) =>
               mkRange (positionAt document (currentObjectStart + index + 1))
                       (positionAt document (currentObjectStart + index + 5))
           | None => braceRange document currentObjectStart
           end
       end.

(** The scanning loop that [findNthObjectInArray] and
    [findNthObjectBracePosition] both spell out: [rest] is the text from
    offset [i] on, and [found] is what the function returns at the opening
    brace of the target object. *)
Fixpoint scanArray (found : nat -> Range) (index : nat) (rest : jsstring) (i : nat)
    (braceCount : Z) (bracketCount objectCount : nat) (inString escapeNext : bool)
    : option Range :=
  match rest with
  | [] => None
  | char :: rest' =>
      if escapeNext then
        scanArray found index rest' (S i) braceCount bracketCount objectCount inString false
      else if (char =? BACKSLASH)%N && inString then
        scanArray found index rest' (S i) braceCount bracketCount objectCount inString true
      else if (char =? DQUOTE)%N then
        scanArray found index rest' (S i) braceCount bracketCount objectCount (negb inString) false
      else if inString then
        scanArray found index rest' (S i) braceCount bracketCount objectCount inString false
      else if (char =? LBRACKET)%N then
        scanArray found index rest' (S i) braceCount (S bracketCount) objectCount inString false
      else if (char =? RBRACKET)%N then
        match bracketCount with
        | S b => scanArray found index rest' (S i) braceCount b objectCount inString false
        | 0 => None
        end
      else if (char =? LBRACE)%N then
        if (braceCount =? 0)%Z && (bracketCount =? 0) && (objectCount =? index)
        then Some (found i)
        else scanArray found index rest' (S i) (braceCount + 1)%Z bracketCount objectCount
               inString false
      else if (char =? RBRACE)%N then
        let braceCount' := (braceCount - 1)%Z in
        if (braceCount' =? 0)%Z && (bracketCount =? 0)
        then scanArray found index rest' (S i) braceCount' bracketCount (S objectCount)
               inString false
        else scanArray found index rest' (S i) braceCount' bracketCount objectCount
               inString false
      else
        scanArray found index rest' (S i) braceCount bracketCount objectCount inString false
  end.

(** The prologue of both functions: skip white space, require an opening
    bracket, start the loop after it. *)
Definition scanRootArray (found : nat -> Range) (text : jsstring) (index : nat) : option Range :=
  let pos := skipSpaces text in
  match text !! pos with
  | Some c =>
      if (c =? LBRACKET)%N
      then scanArray found index (drop (S pos) text) (S pos) 0%Z 0 0 false false
      else None
  | None => None
  end.

(** [findNthObjectInArray] *)
Definition findNthObjectInArray (text document : jsstring) (index : nat)
    (highlightBrace : bool) : option Range :=
  scanRootArray (fun i => targetObjectRange text document i highlightBrace) text index.

(** [findNthObjectBracePosition] *)
Definition findNthObjectBracePosition (text document : jsstring) (index : nat)
    : option Range :=
  scanRootArray (braceRange document) text index.

(** The loop that looks for the brace closing an object, as spelt out in
    [findObjectTextAtPosition] and [findPropertyValueText]: the offset of the
    closing brace that brings [braceCount] back to zero. *)
Fixpoint scanObject (rest : jsstring) (i : nat) (braceCount : Z)
    (inString escapeNext : bool) : option nat :=
  match rest with
  | [] => None
  | char :: rest' =>
      if escapeNext then scanObject rest' (S i) braceCount inString false
      else if (char =? BACKSLASH)%N && inString then
        scanObject rest' (S i) braceCount inString true
      else if (char =? DQUOTE)%N then scanObject rest' (S i) braceCount (negb inString) false
      else if inString then scanObject rest' (S i) braceCount inString false
      else if (char =? LBRACE)%N then
        scanObject rest' (S i) (braceCount + 1)%Z inString false
      else if (char =? RBRACE)%N then
        let braceCount' := (braceCount - 1)%Z in
        if (braceCount' =? 0)%Z then Some i
        else scanObject rest' (S i) braceCount' inString false
      else scanObject rest' (S i) braceCount inString false
  end.

(** The first loop of [findObjectTextAtPosition]: the first opening brace at
    or after offset [i]. *)
Fixpoint firstBrace (rest : jsstring) (i : nat) : option nat :=
  match rest with
  | [] => None
  | char :: rest' => if (char =? LBRACE)%N then Some i else firstBrace rest' (S i)
  end.

(** [findObjectTextAtPosition]: the pair is [(text, startOffset)]. *)
Definition findObjectTextAtPosition (text : jsstring) (startPos : nat)
    : option (jsstring * nat) :=
  match firstBrace (drop startPos text) startPos with
  | None => None
  | Some objectStart =>
      match scanObject (drop (objectStart + 1) text) (objectStart + 1) 1%Z false false with
      | Some i => Some (substring objectStart (i + 1) text, objectStart)
      | None => None
      end
  end.

(** [findPropertyValueText] *)
Definition findPropertyValueText (text : jsstring) : option jsstring :=
  let i := skipSpaces text in
  match text !! i with
  | None => None
  | Some firstChar =>
      if (firstChar =? LBRACE)%N then
        let start_ := i in
        match scanObject (drop i text) i 0%Z false false with
        | Some j => Some (substring start_ (j + 1) text)
        | None => None
        end
      else None
  end.

(** The loop of [findPropertyInText] over the remaining segments. *)
Fixpoint findSegments (document : jsstring) (segments : list jsstring)
    (currentText : jsstring) (currentOffset : nat) : option Range :=
  match segments with
  | [] => None
  | segment :: rest =>
      match exec (keyPattern segment) currentText with
      | None => None
      | Some (index, matchLength) =>
          let propertyOffset := currentOffset + index in
          match rest with
          | [] => Some (keyRange document propertyOffset (length segment))
          | _ :: _ =>
              let valueStart := currentOffset + index + matchLength in
              match findPropertyValueText
                      (drop (index + matchLength) currentText) with
              | None => None
              | Some valueText => findSegments document rest valueText valueStart
              end
          end
      end
  end.

(** [findPropertyInText] *)
Definition findPropertyInText (text document : jsstring) (baseOffset : nat)
    (path : jsstring) : option Range :=
  let segments :=
    filter (fun s => negb (bool_decide (s = [])) && negb (isIndexSegment s))
           (splitSlash path) in
  findSegments document segments text baseOffset.

(** What a JavaScript call yields: a value, or an exception with its message. *)
Inductive Outcome (A : Type) :=
| Returned (a : A)
| Thrown (msg : jsstring).
Arguments Returned {A} a.
Arguments Thrown {A} msg.

(** [findPropertyAtPath] *)
Definition findPropertyAtPath (text document : jsstring) (path : jsstring) : option Range :=
  let segments := splitSlash path in
  match segments with
  | first :: others =>
      if isIndexSegment first then
        let arrayIndex := parseInt first in
        match others with
        | _ :: _ =>
            match findNthObjectBracePosition text document arrayIndex with
            | None => None
            | Some objectBracePos =>
                let objectStart := offsetAt document (start objectBracePos) in
                match findObjectTextAtPosition text objectStart with
                | None => None
                | Some (objectText, startOffset) =>
                    let remainingPath := joinSlash others in
                    findPropertyInText objectText document startOffset remainingPath
                end
            end
        | [] => findNthObjectInArray text document arrayIndex false
        end
      else findPropertyInText text document 0 path
  | [] => findPropertyInText text document 0 path
  end.

(** [text.match(/\{/)] turned into the range of that brace: the root case of
    [findObjectAtPath] and of the [required] rule. *)
Definition rootBraceRange (text document : jsstring) : option Range :=
  match exec bracePattern text with
  | Some (index, _) => Some (braceRange document index)
  | None => None
  end.

(** [findObjectAtPath]; [highlightBrace] defaults to [false] at the callers
    that leave it out. *)
Definition findObjectAtPath (text document : jsstring) (path : jsstring)
    (highlightBrace : bool) : option Range :=
  match path with
  | [] => rootBraceRange text document
  | _ :: _ =>
      let segments := splitSlash path in
      let lastSegment := List.last segments [] in
      if bool_decide (length segments = 1) && isIndexSegment (List.hd [] segments) then
        findNthObjectInArray text document (parseInt (List.hd [] segments)) highlightBrace
      else if isIndexSegment lastSegment then
        findNthObjectInArray text document (parseInt lastSegment) false
      else
        match exec (objectKeyPattern lastSegment) text with
        | Some (index, _) => Some (keyRange document index (length lastSegment))
        | None => None
        end
  end.

(** A parameter that the locator passes to [escapeRegex]: a string, or the
    [TypeError] that [str.replace] raises on anything else. *)
Definition stringParam (key : string) (ps : list (jsstring * Json)) : Outcome jsstring :=
  match param (js key) ps with
  | Some (JStr s) => Returned s
  | _ => Thrown (js "str.replace is not a function")
  end.

(** The last two rules of [findErrorPosition]: the generic navigation and
    the [null] fallback. *)
Definition locateGeneral (text document path : jsstring) : option Range :=
  match path with
  | [] => None
  | _ :: _ => findPropertyAtPath text document path
  end.

(** The [required] rule of [findErrorPosition] and what follows it. *)
Definition locateRequired (text document path : jsstring) (error : ValidationError)
    : option Range :=
  if keywordIs error "required" && hasParam (js "missingProperty") (params error) then
    match path with
    | [] =>
        match rootBraceRange text document with
        | Some r => Some r
        | None => locateGeneral text document path
        end
    | _ :: _ =>
        match findObjectAtPath text document path true with
        | Some position => Some position
        | None => locateGeneral text document path
        end
    end
  else locateGeneral text document path.

(** The [additionalProperties] rule of [findErrorPosition] and what follows. *)
Definition locateAdditional (text document path : jsstring) (error : ValidationError)
    : Outcome (option Range) :=
  if keywordIs error "additionalProperties"
     && hasParam (js "additionalProperty") (params error) then
    match stringParam "additionalProperty" (params error) with
    | Thrown msg => Thrown msg
    | Returned additionalProp =>
        match exec (keyPattern additionalProp) text with
        | Some (index, _) =>
            Returned (Some (keyRange document index (length additionalProp)))
        | None => Returned (locateRequired text document path error)
        end
    end
  else Returned (locateRequired text document path error).

(** [findErrorPosition]: the rules in the order of the source, each falling
    through to the next when it finds nothing. *)
Definition findErrorPosition (document : jsstring) (instancePath : jsstring)
    (error : ValidationError) : Outcome (option Range) :=
  let text := document in
  let path := stripTrailingSlash (stripLeadingSlash instancePath) in
  if keywordIs error "schema" then
    match path with
    | [] =>
        if hasParam (js "schemaId") (params error) then
          match stringParam "schemaId" (params error) with
          | Thrown msg => Thrown msg
          | Returned schemaId =>
              match findTypeFieldByValue text document schemaId with
              | Some position => Returned (Some position)
              | None => locateAdditional text document path error
              end
          end
        else locateAdditional text document path error
    | _ :: _ =>
        match findObjectAtPath text document path false with
        | Some position => Returned (Some position)
        | None => locateAdditional text document path error
        end
    end
  else locateAdditional text document path error.

(** The locator as [validationErrorsToDiagnostics] calls it, on
    [error.instancePath || '']. *)
Definition locate (document : jsstring) (error : ValidationError) : Outcome (option Range) :=
  findErrorPosition document (instancePath error) error.

(** [vscode.DiagnosticSeverity] *)
Inductive DiagnosticSeverity :=
| SeverityError | SeverityWarning | SeverityInformation | SeverityHint.

(** [vscode.Diagnostic], with the fields that the module sets; [source] and
    [code] are [None] while unset. *)
Record Diagnostic := mkDiagnostic {
  diag_range : Range;
  diag_message : jsstring;
  diag_severity : DiagnosticSeverity;
  diag_source : option jsstring;
  diag_code : option jsstring
}.

(** [new vscode.Diagnostic(range, message, severity)].  The constructor is
    the editor's: it refuses an empty message with a [TypeError], and
    leaves [source] and [code] unset. *)
Definition newDiagnostic (range : Range) (text : jsstring) (severity : DiagnosticSeverity)
    : Outcome Diagnostic :=
  match text with
  | [] => Thrown (js "message must be set")
  | _ :: _ => Returned (mkDiagnostic range text severity None None)
  end.

(** The body of the loop of [validationErrorsToDiagnostics]: the range is
    the located one, or the start of the document; the diagnostic is built
    on it with the message of the error and then given its source and its
    code. *)
Definition errorDiagnostic (document : jsstring) (error : ValidationError)
    : Outcome Diagnostic :=
  match locate document error with
  | Thrown msg => Thrown msg
  | Returned position =>
      let range :=
        match position with
        | Some position => position
        | None => mkRange (mkPosition 0 0) (mkPosition 0 1)
        end in
      match newDiagnostic range (message error) SeverityError with
      | Thrown msg => Thrown msg
      | Returned diagnostic =>
          Returned (mkDiagnostic (diag_range diagnostic) (diag_message diagnostic)
                                 (diag_severity diagnostic)
                                 (Some (js "GTS")) (Some (keyword error)))
      end
  end.

(** [validationErrorsToDiagnostics]: one diagnostic per error, in order, or
    the first exception. *)
Fixpoint validationErrorsToDiagnostics (errors : list ValidationError) (document : jsstring)
    : Outcome (list Diagnostic) :=
  match errors with
  | [] => Returned []
  | error :: rest =>
      match errorDiagnostic document error with
      | Thrown msg => Thrown msg
      | Returned diagnostic =>
          match validationErrorsToDiagnostics rest document with
          | Thrown msg => Thrown msg
          | Returned diagnostics => Returned (diagnostic :: diagnostics)
          end
      end
  end.

(** A JSON text written with single quotes where it has double quotes. *)
Definition jsonText (s : string) : jsstring :=
  map (fun c => if (c =? SQUOTE)%N then DQUOTE else c) (js s).

(** An error as the registry builds them, [schemaPath] being [#]. *)
Definition errorAt (path : string) (kw : string) (ps : list (jsstring * Json))
    : ValidationError :=
  mkError (js path) (js "#") (js kw) (js "") ps None.

(** ** The entity model

    [entities.ts] is not among the sources; the records below carry what
    [registry.ts] and the diagnostics module read from its classes. *)

Record ValidationResult := mkResult {
  valid : bool;
  errors : list ValidationError
}.

(** An outbound reference [{ id, sourcePath }]. *)
Record GtsRef := mkRef {
  ref_id : jsstring;
  sourcePath : jsstring
}.

(** [JsonFile] *)
Record JsonFile := mkFile {
  path : jsstring;
  name : jsstring;
  file_content : Json;
  file_validation : option ValidationResult
}.

(** The class of an entity object: [JsonSchema], [JsonObj], or neither. *)
Inductive EntityClass := IsJsonSchema | IsJsonObj | IsOther.

(** [JsonEntity]; [listSequence] and [schemaId] are [None] when
    [undefined]. *)
Record Entity := mkEntity {
  id : jsstring;
  class : EntityClass;
  file : JsonFile;
  listSequence : option nat;
  content : Json;
  schemaId : option jsstring;
  gtsRefs : list GtsRef;
  isGtsEntity : bool;
  validation : option ValidationResult
}.

Definition withValidation (e : Entity) (v : ValidationResult) : Entity :=
  mkEntity (id e) (class e) (file e) (listSequence e) (content e) (schemaId e)
           (gtsRefs e) (isGtsEntity e) (Some v).

(** What the identifier rules of a configuration find in a JSON value. *)
Record Recognized := mkRecognized {
  rec_id : jsstring;
  rec_class : EntityClass;
  rec_schemaId : option jsstring;
  rec_gtsRefs : list GtsRef;
  rec_isGtsEntity : bool
}.

(** An error object as the schema-validation engine reports it; [message]
    and the paths may be missing ([None], or the empty string). *)
Record ErrorObject := mkErrorObject {
  eo_instancePath : jsstring;
  eo_schemaPath : jsstring;
  eo_keyword : jsstring;
  eo_message : option jsstring;
  eo_params : list (jsstring * Json);
  eo_data : option Json
}.

(** A compiled schema: [validate(content)] gives [valid] and
    [validate.errors] ([None] when [null]), or throws. *)
Definition ValidateFunction : Type :=
  Json -> Outcome (bool * option (list ErrorObject)).

(** What a retrieval yields: a network failure, or a response with its
    [ok] flag, status line and the result of [res.json()]. *)
Inductive FetchResult :=
| NetworkError (msg : jsstring)
| Response (ok : bool) (status : nat) (statusText : jsstring) (body : Outcome Json).

(** The collaborators of the registry that are outside the sources: the
    configuration and its recognition rules, the shape check of a file, the
    schema-validation engine (its loader is backed by the schema index, of
    which it reads the contents), the string conversions of the language,
    and the network. *)
Class Collaborators := {
  GtsConfig : Type;
  getGtsConfig : GtsConfig -> GtsConfig;
  DEFAULT_GTS_CONFIG : GtsConfig;
  recognize : GtsConfig -> JsonFile -> option nat -> Json -> Outcome (option Recognized);
  checkFile : jsstring -> jsstring -> Json -> option ValidationResult;
  compileAsync : gmap jsstring Json -> Json -> Outcome ValidateFunction;
  toText : option Json -> jsstring;
  stringify : option Json -> jsstring;
  fetch : nat -> jsstring -> FetchResult
}.

(** The ambient object [globalThis] as [validateEntity] reads it. *)
Record AppApi := mkAppApi {
  api_type : option jsstring;
  disableValidation : bool
}.

Record Ambient := mkAmbient {
  acquireVsCodeApi : bool;
  GTS_APP_API : option AppApi
}.

(** The condition under which [validateEntity] skips the schema-validation
    engine. *)
Definition restrictedHost (g : Ambient) : bool :=
  acquireVsCodeApi g
  || match GTS_APP_API g with
     | Some api => bool_decide (api_type api = Some (js "vscode")) || disableValidation api
     | None => false
     end.

(** ** The registry *)

(** The fields of [JsonRegistry].  A promise of the fetch cache is
    represented by what it settles to. *)
Record Registry := mkRegistry {
  jsonObjs : gmap jsstring Entity;
  jsonSchemas : gmap jsstring Entity;
  jsonFiles : gmap jsstring JsonFile;
  invalidFiles : gmap jsstring JsonFile;
  jsonFileObjs : gmap jsstring (list Entity);
  jsonFileSchemas : gmap jsstring (list Entity);
  fetchCache : gmap jsstring (Outcome Json);
  defaultFilePath : option jsstring
}.

(** [new JsonRegistry()] *)
Definition newRegistry : Registry :=
  mkRegistry ∅ ∅ ∅ ∅ ∅ ∅ ∅ None.

(** [reset] *)
Definition reset (r : Registry) : Registry := newRegistry.

Definition setJsonObjs (m : gmap jsstring Entity) (r : Registry) : Registry :=
  mkRegistry m (jsonSchemas r) (jsonFiles r) (invalidFiles r) (jsonFileObjs r)
             (jsonFileSchemas r) (fetchCache r) (defaultFilePath r).

Definition setJsonSchemas (m : gmap jsstring Entity) (r : Registry) : Registry :=
  mkRegistry (jsonObjs r) m (jsonFiles r) (invalidFiles r) (jsonFileObjs r)
             (jsonFileSchemas r) (fetchCache r) (defaultFilePath r).

Definition setJsonFiles (m : gmap jsstring JsonFile) (r : Registry) : Registry :=
  mkRegistry (jsonObjs r) (jsonSchemas r) m (invalidFiles r) (jsonFileObjs r)
             (jsonFileSchemas r) (fetchCache r) (defaultFilePath r).

Definition setInvalidFiles (m : gmap jsstring JsonFile) (r : Registry) : Registry :=
  mkRegistry (jsonObjs r) (jsonSchemas r) (jsonFiles r) m (jsonFileObjs r)
             (jsonFileSchemas r) (fetchCache r) (defaultFilePath r).

Definition setJsonFileObjs (m : gmap jsstring (list Entity)) (r : Registry) : Registry :=
  mkRegistry (jsonObjs r) (jsonSchemas r) (jsonFiles r) (invalidFiles r) m
             (jsonFileSchemas r) (fetchCache r) (defaultFilePath r).

Definition setJsonFileSchemas (m : gmap jsstring (list Entity)) (r : Registry) : Registry :=
  mkRegistry (jsonObjs r) (jsonSchemas r) (jsonFiles r) (invalidFiles r) (jsonFileObjs r)
             m (fetchCache r) (defaultFilePath r).

Definition setFetchCache (m : gmap jsstring (Outcome Json)) (r : Registry) : Registry :=
  mkRegistry (jsonObjs r) (jsonSchemas r) (jsonFiles r) (invalidFiles r) (jsonFileObjs r)
             (jsonFileSchemas r) m (defaultFilePath r).

(** [for (const x of list) index.delete(x.id)] *)
Definition deleteIds (l : list Entity) (index : gmap jsstring Entity) : gmap jsstring Entity :=
  fold_left (fun m x => delete (id x) m) l index.

(** [invalidateFile] *)
Definition invalidateFile (p : jsstring) (r : Registry) : Registry :=
  let r1 := setJsonFiles (delete p (jsonFiles r)) r in
  let r2 := setInvalidFiles (delete p (invalidFiles r1)) r1 in
  let r3 :=
    match jsonFileObjs r2 !! p with
    | Some objs =>
        setJsonFileObjs (<[p := []]> (delete p (jsonFileObjs r2)))
          (setJsonObjs (deleteIds objs (jsonObjs r2)) r2)
    | None => r2
    end in
  match jsonFileSchemas r3 !! p with
  | Some schemas =>
      setJsonFileSchemas (<[p := []]> (delete p (jsonFileSchemas r3)))
        (setJsonSchemas (deleteIds schemas (jsonSchemas r3)) r3)
  | None => r3
  end.

(** [resolveSchema] *)
Definition resolveSchema (r : Registry) (schemaId : jsstring) : option Entity :=
  jsonSchemas r !! schemaId.

(** [normalizeToArray] together with [Array.isArray(content)] *)
Definition isArray (content : Json) : bool :=
  match content with JArr _ => true | _ => false end.

Definition normalizeToArray (content : Json) : list Json :=
  match content with
  | JArr items => items
  | _ => [content]
  end.

(** [/(^|[\\\/])\.gts-viewer[\\\/]/.test(path)]: [boundary] tells whether
    the pattern may start at the current unit. *)
Definition isSeparator (c : N) : bool := (c =? SLASH)%N || (c =? BACKSLASH)%N.

Fixpoint toolingFrom (boundary : bool) (p : jsstring) : bool :=
  (boundary
   && startsWith (js ".gts-viewer") p
   && match drop 11 p with c :: _ => isSeparator c | [] => false end)
  || match p with
     | c :: p' => toolingFrom (isSeparator c) p'
     | [] => false
     end.

Definition inToolingDirectory (p : jsstring) : bool := toolingFrom true p.

(** The replacement of every [[digits]] by [/digits]: at an opening bracket
    that starts such a group a slash is written and the digits are copied up
    to the closing bracket, which is dropped. *)
Fixpoint closesIndex (seen : bool) (s : jsstring) : bool :=
  match s with
  | c :: s' =>
      if is_digit c then closesIndex true s'
      else seen && (c =? RBRACKET)%N
  | [] => false
  end.

Fixpoint replaceIndices (inside : bool) (s : jsstring) : jsstring :=
  match s with
  | [] => []
  | c :: s' =>
      if inside then
        if is_digit c then c :: replaceIndices true s'
        else replaceIndices false s'
      else if (c =? LBRACKET)%N && closesIndex false s' then
        SLASH :: replaceIndices true s'
      else c :: replaceIndices false s'
  end.

(** [sourcePath.replace(/\./g, '/').replace(/\[(\d+)\]/g, '/$1')] *)
Definition slashNotation (sourcePath : jsstring) : jsstring :=
  replaceIndices false (map (fun c => if (c =? DOT)%N then SLASH else c) sourcePath).

(** The [instancePath] that [validateEntity] gives to a missing reference. *)
Definition refInstancePath (sourcePath : jsstring) : jsstring :=
  if bool_decide (sourcePath = js "root") then [SLASH]
  else SLASH :: slashNotation sourcePath.

(** The error that [validateEntity] pushes for a missing reference. *)
Definition referenceError (ref : GtsRef) : ValidationError :=
  mkError (refInstancePath (sourcePath ref)) (js "#") (js "")
          (js "GTS reference not found: " ++ ref_id ref)
          [(js "gtsId", JStr (ref_id ref)); (js "sourcePath", JStr (sourcePath ref))]
          None.

(** [this.jsonSchemas.has(ref.id) || this.jsonObjs.has(ref.id)] *)
Definition refExists (r : Registry) (ref : GtsRef) : bool :=
  bool_decide (is_Some (jsonSchemas r !! ref_id ref))
  || bool_decide (is_Some (jsonObjs r !! ref_id ref)).

(** The loop of [validateEntity] over [entity.gtsRefs]. *)
Definition checkReferences (r : Registry) (refs : list GtsRef) (v : ValidationResult)
    : ValidationResult :=
  fold_left
    (fun v ref =>
       if refExists r ref then v
       else mkResult false (errors v ++ [referenceError ref]))
    refs v.

(** The three synthetic errors of [validateEntity]. *)
Definition invalidSchemaError (msg : jsstring) : ValidationError :=
  mkError [] (js "#") (js "schema") (js "Invalid JSON Schema: " ++ msg)
          [(js "error", JStr msg)] None.

Definition schemaNotFoundError (schemaId : jsstring) : ValidationError :=
  mkError [] (js "#") (js "schema") (js "Schema not found: " ++ schemaId)
          [(js "schemaId", JStr schemaId)] None.

Definition validationFailedError (msg : jsstring) : ValidationError :=
  mkError [] (js "#") (js "validation") (js "Validation error: " ++ msg)
          [(js "error", JStr msg)] None.

(** [a || b] on strings: the empty string is falsy. *)
Definition orElse (a b : jsstring) : jsstring :=
  match a with [] => b | _ => a end.

Section WithCollaborators.
Context `{C : Collaborators}.

(** The message that [formatValidationErrors] writes for a keyword. *)
Definition detailedMessage (err : ErrorObject) : jsstring :=
  let p key := toText (param (js key) (eo_params err)) in
  let kw k := bool_decide (eo_keyword err = js k) in
  let message := toText (JStr <$> eo_message err) in
  if kw "type" then js "must be " ++ p "type"
  else if kw "required" then
    js "missing required property '" ++ p "missingProperty" ++ js "'"
  else if kw "additionalProperties" then
    js "must NOT have additional property '" ++ p "additionalProperty" ++ js "'"
  else if kw "pattern" then
    js "must match pattern " ++ DQUOTE :: p "pattern" ++ [DQUOTE]
  else if kw "enum" then
    js "must be one of: " ++ stringify (param (js "allowedValues") (eo_params err))
  else if kw "minimum" || kw "maximum" then
    js "must be " ++ p "comparison" ++ js " " ++ p "limit"
  else if kw "minLength" || kw "maxLength" then message
  else if kw "minItems" || kw "maxItems" then
    js "must " ++ (if kw "minItems" then js "NOT" else [])
    ++ js " have " ++ (if kw "minItems" then js "fewer" else js "more")
    ++ js " than " ++ p "limit" ++ js " items"
  else if kw "anyOf" || kw "oneOf" || kw "allOf" then
    js "must match " ++ eo_keyword err ++ js " schema"
  else if kw "format" then
    js "must match format " ++ DQUOTE :: p "format" ++ [DQUOTE]
  else orElse (default [] (eo_message err)) (js "Validation failed").

(** [formatValidationErrors] *)
Definition formatValidationErrors (ajvErrors : list ErrorObject) : list ValidationError :=
  map (fun err =>
         mkError (orElse (eo_instancePath err) [SLASH])
                 (orElse (eo_schemaPath err) (js "#"))
                 (eo_keyword err)
                 (detailedMessage err)
                 (eo_params err)
                 (eo_data err))
      ajvErrors.

(** The contents of the schema index, which is what the loader given to
    the engine hands out ([resolveSchema(id).content]). *)
Definition schemaContents (r : Registry) : gmap jsstring Json :=
  content <$> jsonSchemas r.

(** [!entity.schemaId] *)
Definition noSchemaId (e : Entity) : bool :=
  match schemaId e with
  | None | Some [] => true
  | Some (_ :: _) => false
  end.

(** The validation result that [validateEntity] leaves in the entity. *)
Definition validateResult (g : Ambient) (r : Registry) (entity : Entity) : ValidationResult :=
  let v := checkReferences r (gtsRefs entity) (mkResult true []) in
  if restrictedHost g then v
  else
    match class entity with
    | IsJsonSchema =>
        match compileAsync (schemaContents r) (content entity) with
        | Returned _ => mkResult true (errors v)
        | Thrown msg => mkResult false (errors v ++ [invalidSchemaError msg])
        end
    | IsJsonObj =>
        if noSchemaId entity then v
        else
          let sid := default [] (schemaId entity) in
          match resolveSchema r sid with
          | None => mkResult false (errors v ++ [schemaNotFoundError sid])
          | Some schema =>
              match compileAsync (schemaContents r) (content schema) with
              | Thrown msg => mkResult false (errors v ++ [validationFailedError msg])
              | Returned validate =>
                  match validate (content entity) with
                  | Thrown msg => mkResult false (errors v ++ [validationFailedError msg])
                  | Returned (ok, validateErrors) =>
                      match ok, validateErrors with
                      | false, Some errs => mkResult ok (formatValidationErrors errs)
                      | _, _ => mkResult ok (errors v)
                      end
                  end
              end
          end
    | IsOther => v
    end.

(** [validateEntity]: the entity with its [validation] field rewritten. *)
Definition validateEntity (g : Ambient) (r : Registry) (entity : Entity) : Entity :=
  withValidation entity (validateResult g r entity).

(** [validateEntities]: the schemas, then the objects.  What an entity's
    validation reads of the registry (the keys of both indices and the
    contents of the schemas) is not changed by validating another entity,
    so each index is rewritten as a whole.  The per-file lists, which in the
    code hold the same objects and so see their validation, are left as
    they are: no statement below reads a validation through them. *)
Definition validateEntities (g : Ambient) (r : Registry) : Registry :=
  let r1 := setJsonSchemas (validateEntity g r <$> jsonSchemas r) r in
  setJsonObjs (validateEntity g r1 <$> jsonObjs r1) r1.

(** Modelled from the spec: [createEntity] of [entities.ts], which is not
    among the sources.  The entity belongs to the file it was extracted
    from, carries the array position it was given and the content it was
    made of; its identifier, class, declared schema and outbound
    references are what the rules of the configuration recognise, and it
    starts unvalidated.  The rules may find no entity, or fail. *)
Definition createEntity (jsonFile : JsonFile) (seq : option nat) (entityContent : Json)
    (cfg : GtsConfig) : Outcome (option Entity) :=
  match recognize cfg jsonFile seq entityContent with
  | Thrown msg => Thrown msg
  | Returned None => Returned None
  | Returned (Some k) =>
      Returned (Some (mkEntity (rec_id k) (rec_class k) jsonFile seq entityContent
                               (rec_schemaId k) (rec_gtsRefs k) (rec_isGtsEntity k) None))
  end.

(** Modelled from the spec: the constructor of [JsonFile], which keeps its
    three arguments and records the outcome of the file's own syntax and
    shape check. *)
Definition newJsonFile (p nm : jsstring) (c : Json) : JsonFile :=
  mkFile p nm c (checkFile p nm c).

(** The two branches that index a qualifying entity. *)
Definition indexEntity (p : jsstring) (entity : Entity) (r : Registry) : Registry :=
  match class entity with
  | IsJsonSchema =>
      let r1 := setJsonSchemas (<[id entity := entity]> (jsonSchemas r)) r in
      setJsonFileSchemas
        (<[p := default [] (jsonFileSchemas r1 !! p) ++ [entity]]> (jsonFileSchemas r1)) r1
  | _ =>
      let r1 := setJsonObjs (<[id entity := entity]> (jsonObjs r)) r in
      setJsonFileObjs
        (<[p := default [] (jsonFileObjs r1 !! p) ++ [entity]]> (jsonFileObjs r1)) r1
  end.

(** The [forEach] of [processFileContent] from index [idx] on.  The
    registry is returned as the loop leaves it, together with
    [hasGtsEntities] or the exception that interrupted the loop. *)
Fixpoint processEntities (p : jsstring) (jsonFile : JsonFile) (cfg : GtsConfig)
    (entities : list Json) (idx : nat) (hasGtsEntities : bool) (r : Registry)
    : Registry * Outcome bool :=
  match entities with
  | [] => (r, Returned hasGtsEntities)
  | entityContent :: rest =>
      let seq := if isArray (file_content jsonFile) then Some idx else None in
      match createEntity jsonFile seq entityContent cfg with
      | Thrown msg => (r, Thrown msg)
      | Returned (Some entity) =>
          if isGtsEntity entity
          then processEntities p jsonFile cfg rest (S idx) true (indexEntity p entity r)
          else processEntities p jsonFile cfg rest (S idx) hasGtsEntities r
      | Returned None => processEntities p jsonFile cfg rest (S idx) hasGtsEntities r
      end
  end.

(** [processFileContent]: the registry as the call leaves it, and whether
    it returned or threw. *)
Definition processFileContent (p nm : jsstring) (c : Json) (cfg : GtsConfig)
    (r : Registry) : Registry * Outcome () :=
  let r := invalidateFile p r in
  let jsonFile := newJsonFile p nm c in
  match file_validation jsonFile with
  | Some (mkResult false _) =>
      (setInvalidFiles (<[p := jsonFile]> (invalidFiles r)) r, Returned ())
  | _ =>
      match processEntities p jsonFile cfg (normalizeToArray c) 0 false r with
      | (r', Thrown msg) => (r', Thrown msg)
      | (r', Returned hasGtsEntities) =>
          if hasGtsEntities && negb (bool_decide (is_Some (jsonFiles r' !! p)))
          then (setJsonFiles (<[p := jsonFile]> (jsonFiles r')) r', Returned ())
          else (r', Returned ())
      end
  end.

(** One file of the ingestion input. *)
Record FileInput := mkInput {
  in_path : jsstring;
  in_name : jsstring;
  in_content : Json
}.

(** The loop of [ingestFiles]: files of the tooling directory are skipped,
    an exception of [processFileContent] is caught (and logged). *)
Definition processFiles (files : list FileInput) (cfg : GtsConfig) (r : Registry)
    : Registry :=
  fold_left
    (fun r f =>
       if inToolingDirectory (in_path f) then r
       else fst (processFileContent (in_path f) (in_name f) (in_content f) cfg r))
    files r.

(** [ingestFiles] *)
Definition ingestFiles (g : Ambient) (files : list FileInput) (cfg : GtsConfig)
    (r : Registry) : Registry :=
  let cfg := getGtsConfig cfg in
  validateEntities g (processFiles files cfg r).

(** [fetchJson].  [attempts] is the list of the keys retrieved so far, the
    last one first; the call returns what its promise settles to. *)
Definition retrieve (attempts : list jsstring) (p key : jsstring) : Outcome Json :=
  match fetch (length attempts) key with
  | NetworkError msg => Thrown msg
  | Response ok status statusText body =>
      if ok then body
      else Thrown (js "Failed to fetch " ++ p ++ js ": " ++ decimal status
                   ++ js " " ++ statusText)
  end.

(** The key of the cache: the path with a leading slash. *)
Definition fetchKey (p : jsstring) : jsstring :=
  if startsWith [SLASH] p then p else SLASH :: p.

Definition fetchJson (p : jsstring) (force : bool) (st : Registry * list jsstring)
    : Outcome Json * (Registry * list jsstring) :=
  let '(r, attempts) := st in
  let key := fetchKey p in
  match force, fetchCache r !! key with
  | false, Some promise => (promise, st)
  | _, _ =>
      let promise := retrieve attempts p key in
      (promise, (setFetchCache (<[key := promise]> (fetchCache r)) r, key :: attempts))
  end.

(** The errors that [validateOpenDocument] collects for the document at
    [filePath] once the registry is populated. *)
Definition prefixError (seq : nat) (err : ValidationError) : ValidationError :=
  let normalizedPath := stripLeadingSlash (instancePath err) in
  let newPath :=
    match normalizedPath with
    | [] => SLASH :: decimal seq
    | _ :: _ => SLASH :: decimal seq ++ SLASH :: normalizedPath
    end in
  mkError newPath (schemaPath err) (keyword err) (message err) (params err) (data err).

Definition entityErrors (e : Entity) : list ValidationError :=
  match validation e with
  | Some v =>
      match errors v with
      | [] => []
      | _ :: _ =>
          match listSequence e with
          | Some seq => map (prefixError seq) (errors v)
          | None => errors v
          end
      end
  | None => []
  end.

(** [Array.from(index.values()).filter(e => e.file?.path === filePath)].
    The entities come in the order in which the finite map lists them, where
    the code has the order of insertion; the statements below read the list
    through membership, or where it holds a single entity. *)
Definition ownedBy (filePath : jsstring) (index : gmap jsstring Entity) : list Entity :=
  filter (fun e => path (file e) = filePath) (map_to_list index).*2.

(** [invalid?.validation.errors], empty when there is no invalid file or no
    validation. *)
Definition invalidFileErrors (r : Registry) (filePath : jsstring) : list ValidationError :=
  match invalidFiles r !! filePath with
  | Some invalid =>
      match file_validation invalid with
      | Some v => errors v
      | None => []
      end
  | None => []
  end.

Definition surfacedErrors (r : Registry) (filePath : jsstring) : list ValidationError :=
  match invalidFileErrors r filePath with
  | (_ :: _) as invalidErrors => invalidErrors
  | [] =>
      let fileObjs := ownedBy filePath (jsonObjs r) in
      let fileSchemas := ownedBy filePath (jsonSchemas r) in
      concat (map entityErrors (fileObjs ++ fileSchemas))
  end.

(** [validateOpenDocument] up to the list of errors it turns into
    diagnostics: [files] is what [getLastScanFiles] returns and [c] the
    parsed text of the document, or the text itself if parsing failed. *)
Definition openDocumentErrors (g : Ambient) (files : list FileInput)
    (filePath fileName : jsstring) (c : Json) : list ValidationError :=
  let withoutCurrent := filter (fun f => in_path f ≠ filePath) files in
  let merged := withoutCurrent ++ [mkInput filePath fileName c] in
  let registry := ingestFiles g merged DEFAULT_GTS_CONFIG newRegistry in
  surfacedErrors registry filePath.
End WithCollaborators.

(** ** Sequences of registry operations *)

Section Operations.
Context `{C : Collaborators}.

(** The two operations that add to and remove from the indices. *)
Inductive Op :=
| Ingest (files : list FileInput) (cfg : GtsConfig)
| Invalidate (p : jsstring).

Definition step (g : Ambient) (r : Registry) (op : Op) : Registry :=
  match op with
  | Ingest files cfg => ingestFiles g files cfg r
  | Invalidate p => invalidateFile p r
  end.

(** The registry after a sequence of operations on a fresh one. *)
Definition run (g : Ambient) (ops : list Op) : Registry :=
  fold_left (step g) ops newRegistry.
End Operations.

(** ** A small instance of the collaborators

    Used to evaluate the registry on concrete inputs.  An object with a
    string field [id] is an entity: a schema when it has a field [$schema],
    an object otherwise; its field [type] names its schema and its field
    [ref] is an outbound reference.  A schema lists the fields it requires
    under [required]; the engine reports one [required] error per missing
    field. *)

Fixpoint field (key : jsstring) (fields : list (jsstring * Json)) : option Json :=
  match fields with
  | [] => None
  | (k, v) :: rest => if decide (k = key) then Some v else field key rest
  end.

Definition stringField (key : string) (c : Json) : option jsstring :=
  match c with
  | JObj fields => match field (js key) fields with Some (JStr s) => Some s | _ => None end
  | _ => None
  end.

Definition hasField (key : jsstring) (c : Json) : bool :=
  match c with
  | JObj fields => match field key fields with Some _ => true | None => false end
  | _ => false
  end.

Definition demoRecognize (cfg : ()) (f : JsonFile) (seq : option nat) (c : Json)
    : Outcome (option Recognized) :=
  match stringField "id" c with
  | None => Returned None
  | Some i =>
      Returned (Some (mkRecognized i
        (if hasField (js "$schema") c then IsJsonSchema else IsJsonObj)
        (stringField "type" c)
        (match stringField "ref" c with
         | Some target => [mkRef target (js "ref")]
         | None => []
         end)
        true))
  end.

Definition demoRequired (schema : Json) : list jsstring :=
  match schema with
  | JObj fields =>
      match field (js "required") fields with
      | Some (JArr names) =>
          omap (fun n => match n with JStr s => Some s | _ => None end) names
      | _ => []
      end
  | _ => []
  end.

Definition demoCompile (schemas : gmap jsstring Json) (schema : Json)
    : Outcome ValidateFunction :=
  match schema with
  | JObj _ =>
      Returned (fun instance =>
        let missing := filter (fun k => hasField k instance = false) (demoRequired schema) in
        match missing with
        | [] => Returned (true, None)
        | _ :: _ =>
            Returned (false, Some (map (fun k =>
              mkErrorObject [] (js "#/required") (js "required") None
                            [(js "missingProperty", JStr k)] None) missing))
        end)
  | _ => Thrown (js "schema must be object or boolean")
  end.

Definition demoText (v : option Json) : jsstring :=
  match v with
  | Some (JStr s) => s
  | Some _ => js "[object Object]"
  | None => js "undefined"
  end.

Definition demoCheckFile (p nm : jsstring) (c : Json) : option ValidationResult :=
  match c with
  | JStr _ => Some (mkResult false [mkError [] (js "#") (js "syntax") (js "Invalid JSON") [] None])
  | _ => Some (mkResult true [])
  end.

Definition demoFetch (attempt : nat) (key : jsstring) : FetchResult :=
  match attempt with
  | 0 => Response false 404 (js "Not Found") (Thrown (js "no body"))
  | _ => Response true 200 (js "OK") (Returned JNull)
  end.

Definition demo : Collaborators :=
  Build_Collaborators () (fun cfg => cfg) () demoRecognize demoCheckFile demoCompile
                      demoText demoText demoFetch.

(** The same instance with rules that report the outbound reference of an
    entity at the source path [root], the one for which [validateEntity]
    writes the [instancePath] of the root. *)
Definition rootRecognize (cfg : ()) (f : JsonFile) (seq : option nat) (c : Json)
    : Outcome (option Recognized) :=
  match demoRecognize cfg f seq c with
  | Returned (Some k) =>
      Returned (Some (mkRecognized (rec_id k) (rec_class k) (rec_schemaId k)
        (map (fun ref => mkRef (ref_id ref) (js "root")) (rec_gtsRefs k))
        (rec_isGtsEntity k)))
  | other => other
  end.

Definition demoRoot : Collaborators :=
  Build_Collaborators () (fun cfg => cfg) () rootRecognize demoCheckFile demoCompile
                      demoText demoText demoFetch.

(** A host without restriction, and the webview of the editor. *)
Definition plainHost : Ambient := mkAmbient false None.
Definition webviewHost : Ambient := mkAmbient true None.

(** ** The statements of the specification, in its own words *)

(** The words of the specification: at offset [i] of [text] stands the key
    between two quotes, followed by white space and a colon. *)
Definition quotedKeyAt (key text : jsstring) (i : nat) : Prop :=
  exists q1 q2 ws rest,
    drop i text = q1 :: key ++ q2 :: ws ++ COLON :: rest
    /\ is_quote q1 = true /\ is_quote q2 = true
    /\ Forall (fun c => is_space c = true) ws.

(** The first opening brace of a text, in the words of the specification. *)
Definition firstBraceAt (text : jsstring) (i : nat) : Prop :=
  text !! i = Some LBRACE /\ forall j, j < i -> text !! j <> Some LBRACE.

(** A run of calls of [fetchJson] without [force]. *)
Definition fetchAll `{C : Collaborators} (ps : list jsstring) (st : Registry * list jsstring)
    : Registry * list jsstring :=
  fold_left (fun st p => snd (fetchJson p false st)) ps st.

(** The errors of a result that report the identifier [i] as a reference
    that was not found. *)
Definition notFoundErrors (i : jsstring) (v : ValidationResult) : list ValidationError :=
  filter (fun err => keyword err = []
                     /\ message err = js "GTS reference not found: " ++ i
                     /\ paramString (js "gtsId") (params err) = Some i)
         (errors v).

(** Invalidation completeness as the specification states it: nothing owned
    by [p] is left in an index, [p] is in neither file map, and both
    per-file indices map [p] to the empty list. *)
Definition invalidationLeaves (p : jsstring) (r' : Registry) : Prop :=
  (forall k e, jsonObjs r' !! k = Some e -> path (file e) <> p)
  /\ (forall k e, jsonSchemas r' !! k = Some e -> path (file e) <> p)
  /\ (forall q l e, jsonFileObjs r' !! q = Some l -> e ∈ l -> path (file e) <> p)
  /\ (forall q l e, jsonFileSchemas r' !! q = Some l -> e ∈ l -> path (file e) <> p)
  /\ jsonFiles r' !! p = None
  /\ invalidFiles r' !! p = None.

Definition invalidationComplete_stated (r : Registry) (p : jsstring) : Prop :=
  let r' := invalidateFile p r in
  invalidationLeaves p r'
  /\ jsonFileObjs r' !! p = Some []
  /\ jsonFileSchemas r' !! p = Some [].

(** The path at which an error held by a validation result was first
    reported: the [instancePath] of the engine's error object for an error
    written by [formatValidationErrors], and the [instancePath] that
    [validateEntity] writes for the errors it makes itself, which are the
    error of the reference check and the three errors without a path. *)
Inductive reportedAt `{C : Collaborators} : ValidationError -> jsstring -> Prop :=
| reportedByEngine eo err :
    formatValidationErrors [eo] = [err] -> reportedAt err (eo_instancePath eo)
| reportedByReferenceCheck ref :
    reportedAt (referenceError ref) (refInstancePath (sourcePath ref))
| reportedInvalidSchema msg :
    reportedAt (invalidSchemaError msg) []
| reportedSchemaNotFound schemaId :
    reportedAt (schemaNotFoundError schemaId) []
| reportedValidationFailed msg :
    reportedAt (validationFailedError msg) [].

(** Sibling path prefixing as the specification states it: the surfaced
    path of [err] is a slash, the array position and the path [reported] at
    which the error was first reported. *)
Definition prefixing_stated (seq : nat) (reported : jsstring) (err : ValidationError) : Prop :=
  instancePath (prefixError seq err) = SLASH :: decimal seq ++ reported.

(** The invariant of the specification on the two file maps. *)
Definition filesDisjoint (r : Registry) : Prop :=
  forall p, ~ (is_Some (jsonFiles r !! p) /\ is_Some (invalidFiles r !! p)).

(** A global index and its per-file index agree: every indexed entity is
    indexed under its identifier and listed under the file that owns it, and
    every per-file list holds entities of that file only. *)
Definition indexConsistent (index : gmap jsstring Entity)
    (perFile : gmap jsstring (list Entity)) : Prop :=
  (forall k e, index !! k = Some e ->
     id e = k /\ exists l, perFile !! path (file e) = Some l /\ k ∈ id <$> l)
  /\ (forall q l e, perFile !! q = Some l -> e ∈ l -> path (file e) = q).

Definition ownershipConsistent (r : Registry) : Prop :=
  indexConsistent (jsonObjs r) (jsonFileObjs r)
  /\ indexConsistent (jsonSchemas r) (jsonFileSchemas r).

(** What [invalidateFile] does to a global index and its per-file index. *)
Definition purgeIndex (p : jsstring) (index : gmap jsstring Entity)
    (perFile : gmap jsstring (list Entity)) : gmap jsstring Entity :=
  match perFile !! p with
  | Some l => deleteIds l index
  | None => index
  end.

Definition purgePerFile (p : jsstring) (perFile : gmap jsstring (list Entity))
    : gmap jsstring (list Entity) :=
  match perFile !! p with
  | Some _ => <[p := []]> perFile
  | None => perFile
  end.

(** The array position of an entity agrees with its file: when the content
    of the file is an array, [listSequence] is the index at which the array
    holds the content of the entity; otherwise it is undefined. *)
Definition sequenced (e : Entity) : Prop :=
  match file_content (file e) with
  | JArr items => exists i, listSequence e = Some i /\ items !! i = Some (content e)
  | _ => listSequence e = None
  end.

Definition sequenceConsistent (r : Registry) : Prop :=
  (forall k e, jsonObjs r !! k = Some e -> sequenced e)
  /\ (forall k e, jsonSchemas r !! k = Some e -> sequenced e).

(** The surfaced path in closed form. *)
Definition prefixedPath (seq : nat) (p : jsstring) : jsstring :=
  SLASH :: decimal seq
  ++ match stripLeadingSlash p with
     | [] => []
     | rest => SLASH :: rest
     end.

(** At offset [i] of [text] stands the double-quoted word type, white
    space, a colon, white space and the double-quoted [value]. *)
Definition typeFieldAt (value text : jsstring) (i : nat) : Prop :=
  exists ws1 ws2 rest,
    drop i text
    = DQUOTE :: js "type" ++ DQUOTE :: ws1 ++ COLON :: ws2 ++ DQUOTE :: value ++ DQUOTE :: rest
    /\ Forall (fun c => is_space c = true) ws1
    /\ Forall (fun c => is_space c = true) ws2.

(** Some per-file index lists at least one entity under [p]. *)
Definition listedAt (p : jsstring) (r : Registry) : Prop :=
  exists l, (jsonFileObjs r !! p = Some l \/ jsonFileSchemas r !! p = Some l) /\ l <> [].

(** The file maps are keyed by the path of the file they hold; a file of
    [jsonFiles] has an entity listed under its path, a file of
    [invalidFiles] carries a validation that failed. *)
Definition fileRecordsConsistent (r : Registry) : Prop :=
  map_Forall (fun p f => path f = p /\ listedAt p r) (jsonFiles r)
  /\ map_Forall (fun p f => path f = p
                            /\ exists errs, file_validation f = Some (mkResult false errs))
                (invalidFiles r).

(** No index holds an entity owned by a file of [invalidFiles]. *)
Definition invalidFilesBare (r : Registry) : Prop :=
  forall p, is_Some (invalidFiles r !! p) ->
    map_Forall (fun _ e => path (file e) <> p) (jsonObjs r)
    /\ map_Forall (fun _ e => path (file e) <> p) (jsonSchemas r).

(** The path has a component [.gts-viewer]: the word stands at the start of
    the path or after a slash or backslash, and a slash or backslash follows
    it. *)
Definition underToolingDirectory (p : jsstring) : Prop :=
  exists pre sep rest,
    p = pre ++ js ".gts-viewer" ++ sep :: rest
    /\ isSeparator sep = true
    /\ (pre = [] \/ exists pre' s, pre = pre' ++ [s] /\ isSeparator s = true).

(** ** Concrete inputs *)

Definition obj (fields : list (string * Json)) : Json :=
  JObj (map (fun kv => (js kv.1, kv.2)) fields).

Definition str (s : string) : Json := JStr (js s).

Definition demoConfig : @GtsConfig demo := ().

(** Two files that each hold an object of identifier [x]. *)
Definition fileA : FileInput := mkInput (js "a.json") (js "a.json") (obj [("id", str "x")]).
Definition fileB : FileInput := mkInput (js "b.json") (js "b.json") (obj [("id", str "x")]).

(** A schema [sch] that requires the field [name], and an object [o1] of
    that schema which lacks the field and refers to the unknown [gone]. *)
Definition fileSchema : FileInput :=
  mkInput (js "s.json") (js "s.json")
          (obj [("id", str "sch"); ("$schema", str "x"); ("required", JArr [str "name"])]).
Definition fileObject : FileInput :=
  mkInput (js "o.json") (js "o.json")
          (obj [("id", str "o1"); ("type", str "sch"); ("ref", str "gone")]).

(** An array of three objects of schema [sch]; the third lacks the field
    [name]. *)
Definition arrayContent : Json :=
  JArr [obj [("id", str "e0"); ("type", str "sch"); ("name", str "a")];
        obj [("id", str "e1"); ("type", str "sch"); ("name", str "b")];
        obj [("id", str "e2"); ("type", str "sch")]].

(** An array of three objects without a schema; the third refers to the
    unknown [gone]. *)
Definition arrayRootReference : Json :=
  JArr [obj [("id", str "e0")];
        obj [("id", str "e1")];
        obj [("id", str "e2"); ("ref", str "gone")]].

(** * Properties *)

(** ** The locator on the elements of a root array *)

Lemma scanArray_ext (f g : nat -> Range) index rest :
  (forall i, f i = g i) ->
  forall i braceCount bracketCount objectCount inString escapeNext,
    scanArray f index rest i braceCount bracketCount objectCount inString escapeNext
    = scanArray g index rest i braceCount bracketCount objectCount inString escapeNext.
Proof.
  intros Hfg. induction rest as [|char rest IH]; intros; simpl; [done|].
  rewrite Hfg.
  repeat first [ rewrite IH | done | case_match ].
Qed.

(** The text handed to the two field patterns is one code unit long, and
    neither pattern matches a text that short. *)
Lemma exec_stringField_short (f : string) (t : jsstring) :
  f = "id"%string \/ f = "type"%string ->
  length t <= 1 ->
  exec (stringFieldPattern f) t = None.
Proof.
  intros Hf Hlen.
  destruct t as [|c [|c' t]]; simpl in Hlen; try lia.
  - destruct Hf as [-> | ->]; reflexivity.
  - destruct Hf as [-> | ->]; unfold exec; simpl;
      destruct (c =? DQUOTE)%N; reflexivity.
Qed.

Lemma targetObjectRange_brace text document i highlightBrace :
  targetObjectRange text document i highlightBrace = braceRange document i.
Proof.
  unfold targetObjectRange.
  destruct highlightBrace; [done|].
  assert (Hlen : length (substring i (i + 1) text) <= 1).
  { unfold substring. rewrite length_take. lia. }
  rewrite !exec_stringField_short by auto.
  done.
Qed.

(** The search for an [id] or [type] field in [findNthObjectInArray] never
    succeeds: whatever the flag, the function is [findNthObjectBracePosition]. *)
Lemma findNthObjectInArray_brace_position text document index highlightBrace :
  findNthObjectInArray text document index highlightBrace
  = findNthObjectBracePosition text document index.
Proof.
  unfold findNthObjectInArray, findNthObjectBracePosition, scanRootArray.
  repeat case_match; try done.
  apply scanArray_ext. intros i. apply targetObjectRange_brace.
Qed.

(** C1. On the document [[{"id":"a","type":"t"}]] and an error of keyword
    [type] at [/0], the locator reaches the first object of the array and
    returns the range of its opening brace (offsets 1 to 2), although the
    object has an [id] field, whose key lies at offsets 3 to 5: the text in
    which [findNthObjectInArray] looks for the field is the opening brace
    alone. *)
Theorem locate_array_element_ignores_id :
  let document := jsonText "[{'id':'a','type':'t'}]" in
  let error := errorAt "/0" "type" [] in
  locate document error = Returned (Some (braceRange document 1))
  /\ braceRange document 1 = mkRange (mkPosition 0 1) (mkPosition 0 2)
  /\ substring 2 6 document = jsonText "'id'"
  /\ mkRange (positionAt document 3) (positionAt document 5)
     = mkRange (mkPosition 0 3) (mkPosition 0 5)
  /\ substring 1 2 document = [LBRACE].
Proof. vm_compute. done. Qed.

(** ** The matcher on the key pattern *)

Lemma matchHere_literal_app s r t :
  matchHere (literal s ++ r) (s ++ t) = (fun n => length s + n) <$> matchHere r t.
Proof.
  induction s as [|c s IH]; simpl.
  - by destruct (matchHere r t).
  - rewrite N.eqb_refl, IH. by destruct (matchHere r t).
Qed.

Lemma matchHere_literal_inv s r t :
  is_Some (matchHere (literal s ++ r) t) ->
  exists t', t = s ++ t' /\ is_Some (matchHere r t').
Proof.
  revert t. induction s as [|c s IH]; simpl; intros t H.
  - by exists t.
  - destruct t as [|x t]; [by destruct H|].
    destruct (x =? c)%N eqn:E; [|by destruct H].
    apply N.eqb_eq in E as ->.
    destruct (matchHere (literal s ++ r) t) eqn:E'; [|by destruct H].
    destruct (IH t) as (t' & -> & Ht'); [by rewrite E'|].
    by exists t'.
Qed.

Lemma matchHere_star_lit p c t :
  p c = false ->
  is_Some (matchHere [Star p; Lit c] t)
  <-> exists ws rest, t = ws ++ c :: rest /\ Forall (fun x => p x = true) ws.
Proof.
  intros Hpc. simpl. split.
  - induction t as [|x t IH]; simpl; intros H.
    + by destruct H.
    + destruct (p x) eqn:Hx.
      * destruct (matchStar p _ t) eqn:E.
        -- destruct IH as (ws & rest & -> & Hws); [done|].
           exists (x :: ws), rest. split; [done|]. by constructor.
        -- destruct (x =? c)%N eqn:Exc; [|by destruct H].
           apply N.eqb_eq in Exc as ->. congruence.
      * destruct (x =? c)%N eqn:Exc; [|by destruct H].
        apply N.eqb_eq in Exc as ->. by exists [], t.
  - intros (ws & rest & -> & Hws).
    induction Hws as [|x ws Hx Hws IH]; simpl.
    + rewrite Hpc, N.eqb_refl. done.
    + rewrite Hx. destruct IH as [n Hn]. rewrite Hn. done.
Qed.

(** The key pattern matches exactly where the specification's quoted key
    followed by a colon stands. *)
Lemma keyPattern_matches key t :
  is_Some (matchHere (keyPattern key) t)
  <-> exists q1 q2 ws rest,
        t = q1 :: key ++ q2 :: ws ++ COLON :: rest
        /\ is_quote q1 = true /\ is_quote q2 = true
        /\ Forall (fun c => is_space c = true) ws.
Proof.
  unfold keyPattern. split.
  - destruct t as [|q1 t]; simpl; [by intros []|].
    destruct (is_quote q1) eqn:Hq1; [|by intros []].
    rewrite fmap_is_Some. intros H.
    apply matchHere_literal_inv in H as (t' & -> & H).
    destruct t' as [|q2 t']; simpl in H; [by destruct H|].
    destruct (is_quote q2) eqn:Hq2; [|by destruct H].
    rewrite fmap_is_Some in H.
    apply (matchHere_star_lit is_space COLON) in H as (ws & rest & -> & Hws); [|done].
    by exists q1, q2, ws, rest.
  - intros (q1 & q2 & ws & rest & -> & Hq1 & Hq2 & Hws). simpl.
    rewrite Hq1, fmap_is_Some, matchHere_literal_app, fmap_is_Some.
    cbn [matchHere]. rewrite Hq2, fmap_is_Some.
    apply (matchHere_star_lit is_space COLON); [done|]. by exists ws, rest.
Qed.

Lemma quotedKeyAt_matchHere key text i :
  quotedKeyAt key text i <-> is_Some (matchHere (keyPattern key) (drop i text)).
Proof. unfold quotedKeyAt. by rewrite keyPattern_matches. Qed.

(** [exec] returns the leftmost offset at which the pattern matches. *)
Lemma execFrom_first pat t i k n :
  matchHere pat (drop i t) = Some n ->
  (forall j, j < i -> matchHere pat (drop j t) = None) ->
  execFrom pat t k = Some (k + i, n).
Proof.
  revert t k. induction i as [|i IH]; intros t k Hm Hnone.
  - rewrite drop_0 in Hm. destruct t; simpl; rewrite Hm; f_equal; f_equal; lia.
  - pose proof (Hnone 0 ltac:(lia)) as H0. rewrite drop_0 in H0.
    destruct t as [|x t]; simpl in Hm; [congruence|].
    simpl. rewrite H0.
    rewrite (IH t (S k) Hm).
    + f_equal; f_equal; lia.
    + intros j Hj. apply (Hnone (S j)). lia.
Qed.

Lemma bounded_first pat t b :
  (forall j, j < b -> matchHere pat (drop j t) = None)
  \/ (exists i n, i < b /\ matchHere pat (drop i t) = Some n
                 /\ forall j, j < i -> matchHere pat (drop j t) = None).
Proof.
  induction b as [|b [IH | (i & n & Hi & Hm & Hnone)]].
  - left. lia.
  - destruct (matchHere pat (drop b t)) as [n|] eqn:E.
    + right. exists b, n. auto.
    + left. intros j Hj. destruct (decide (j = b)) as [->|]; [done|]. apply IH. lia.
  - right. exists i, n. auto.
Qed.

Lemma exec_leftmost pat t i :
  is_Some (matchHere pat (drop i t)) ->
  exists i0 n, exec pat t = Some (i0, n)
    /\ i0 <= i
    /\ matchHere pat (drop i0 t) = Some n
    /\ forall j, j < i0 -> matchHere pat (drop j t) = None.
Proof.
  intros [m Hm].
  destruct (bounded_first pat t (S i)) as [Hnone | (i0 & n & Hi0 & Hm0 & Hnone)].
  - rewrite Hnone in Hm by lia. done.
  - exists i0, n. split; [|repeat split; [lia|done..]].
    unfold exec. by rewrite (execFrom_first pat t i0 0 n).
Qed.

Lemma keywordIs_true e (k : string) : keyword e = js k -> keywordIs e k = true.
Proof. intros H. unfold keywordIs. by apply bool_decide_eq_true. Qed.

Lemma keywordIs_false e (k k' : string) :
  keyword e = js k -> js k <> js k' -> keywordIs e k' = false.
Proof. intros H Hne. unfold keywordIs. apply bool_decide_eq_false. congruence. Qed.

(** C6. For an error of keyword [additionalProperties] that carries the
    property name, if the document has a quoted occurrence of the name
    followed by a colon, the locator returns the range of the first such
    occurrence, from the unit after its opening quote to the unit before its
    closing quote: those units are the name itself. *)
Theorem locate_additional_property document error prop :
  keyword error = js "additionalProperties" ->
  param (js "additionalProperty") (params error) = Some (JStr prop) ->
  (exists i, quotedKeyAt prop document i) ->
  exists i,
    quotedKeyAt prop document i
    /\ (forall j, j < i -> ~ quotedKeyAt prop document j)
    /\ locate document error
       = Returned (Some (mkRange (positionAt document (i + 1))
                                 (positionAt document (i + 1 + length prop))))
    /\ substring (i + 1) (i + 1 + length prop) document = prop.
Proof.
  intros Hkw Hparam [i Hi].
  apply quotedKeyAt_matchHere, exec_leftmost in Hi as (i0 & n & Hexec & _ & Hm & Hnone).
  exists i0. split; [|split; [|split]].
  - apply quotedKeyAt_matchHere. by rewrite Hm.
  - intros j Hj Hocc. apply quotedKeyAt_matchHere in Hocc.
    rewrite (Hnone j Hj) in Hocc. by destruct Hocc.
  - unfold locate, findErrorPosition.
    rewrite (keywordIs_false error "additionalProperties" "schema") by done.
    unfold locateAdditional, hasParam, stringParam.
    rewrite (keywordIs_true error "additionalProperties"), Hparam by done.
    simpl. rewrite Hexec. done.
  - assert (Hocc : quotedKeyAt prop document i0).
    { apply quotedKeyAt_matchHere. by rewrite Hm. }
    destruct Hocc as (q1 & q2 & ws & rest & Hdrop & _).
    unfold substring.
    replace (i0 + 1 + length prop - (i0 + 1)) with (length prop) by lia.
    rewrite <- drop_drop, Hdrop. simpl.
    by rewrite drop_0, take_app_length.
Qed.

(** The scenario of the specification: in [{"a": {"extra": 1}}] the located
    range covers the five units of [extra], offsets 8 to 13. *)
Lemma locate_additional_property_witness :
  let document := jsonText "{'a': {'extra': 1}}" in
  let error := errorAt "/a" "additionalProperties"
                       [(js "additionalProperty", JStr (js "extra"))] in
  exists i,
    quotedKeyAt (js "extra") document i
    /\ (forall j, j < i -> ~ quotedKeyAt (js "extra") document j)
    /\ locate document error
       = Returned (Some (mkRange (positionAt document (i + 1))
                                 (positionAt document (i + 1 + length (js "extra")))))
    /\ substring (i + 1) (i + 1 + length (js "extra")) document = js "extra".
Proof.
  intros document error.
  apply (locate_additional_property document error (js "extra")).
  - reflexivity.
  - reflexivity.
  - exists 7, DQUOTE, DQUOTE, [], (jsonText " 1}}").
    repeat split; first [reflexivity | constructor].
Defined.

Example additional_property_scenario :
  locate (jsonText "{'a': {'extra': 1}}")
         (errorAt "/a" "additionalProperties" [(js "additionalProperty", JStr (js "extra"))])
  = Returned (Some (mkRange (mkPosition 0 8) (mkPosition 0 13))).
Proof. reflexivity. Qed.

(** ** Required-property errors *)

Lemma matchHere_brace t :
  is_Some (matchHere bracePattern t) <-> t !! 0 = Some LBRACE.
Proof.
  destruct t as [|x t]; simpl.
  - split; [by intros [] | done].
  - destruct (x =? LBRACE)%N eqn:E.
    + apply N.eqb_eq in E as ->. split; [done | by eexists].
    + apply N.eqb_neq in E. split; [by intros [] | congruence].
Qed.

Lemma rootBraceRange_first text document i :
  firstBraceAt text i -> rootBraceRange text document = Some (braceRange document i).
Proof.
  intros [Hi Hnone]. unfold rootBraceRange.
  assert (Hm : is_Some (matchHere bracePattern (drop i text))).
  { apply matchHere_brace. by rewrite lookup_drop, Nat.add_0_r. }
  destruct Hm as [n Hm].
  unfold exec. rewrite (execFrom_first bracePattern text i 0 n Hm); [done|].
  intros j Hj. destruct (matchHere bracePattern (drop j text)) eqn:E; [|done].
  exfalso. apply (Hnone j Hj).
  assert (Hs : is_Some (matchHere bracePattern (drop j text))) by (by rewrite E).
  apply matchHere_brace in Hs. by rewrite lookup_drop, Nat.add_0_r in Hs.
Qed.

(** The part of the rule that holds: a [required] error at the root is
    anchored to the first opening brace of the document. *)
Lemma locate_required_root document error i :
  keyword error = js "required" ->
  hasParam (js "missingProperty") (params error) = true ->
  stripTrailingSlash (stripLeadingSlash (instancePath error)) = [] ->
  firstBraceAt document i ->
  locate document error = Returned (Some (braceRange document i)).
Proof.
  intros Hkw Hparam Hpath Hbrace.
  unfold locate, findErrorPosition. rewrite Hpath.
  rewrite (keywordIs_false error "required" "schema") by done.
  unfold locateAdditional.
  rewrite (keywordIs_false error "required" "additionalProperties") by done.
  simpl. unfold locateRequired.
  rewrite (keywordIs_true error "required"), Hparam by done. simpl.
  by rewrite (rootBraceRange_first _ _ i).
Qed.

(** With a path of one array index, the rule returns the opening brace of
    that element of the root array. *)
Lemma findObjectAtPath_index text document seg highlightBrace :
  isIndexSegment seg = true ->
  findObjectAtPath text document seg highlightBrace
  = findNthObjectBracePosition text document (parseInt seg).
Proof.
  intros Hseg. unfold findObjectAtPath.
  destruct seg as [|c seg]; [done|].
  assert (Hsplit : splitSlash (c :: seg) = [c :: seg]).
  { clear -Hseg. revert c Hseg. induction seg as [|d seg IH]; intros c Hseg.
    - simpl in *. destruct (c =? SLASH)%N eqn:E; [|done].
      apply N.eqb_eq in E as ->. done.
    - simpl in Hseg. apply andb_prop in Hseg as [Hc Hrest].
      change (splitSlash (c :: d :: seg))
        with (if (c =? SLASH)%N then [] :: splitSlash (d :: seg)
              else match splitSlash (d :: seg) with
                   | s :: segs => (c :: s) :: segs
                   | [] => [[c]]
                   end).
      rewrite (IH d) by (simpl; done).
      destruct (c =? SLASH)%N eqn:E; [|done].
      apply N.eqb_eq in E as ->. done. }
  rewrite Hsplit. simpl length. simpl List.hd.
  rewrite bool_decide_eq_true_2 by done. rewrite Hseg. simpl.
  apply findNthObjectInArray_brace_position.
Qed.

(** C5. On the document [{"payload": {"x": 1}}] and a [required] error at
    [/payload], the object addressed by the path is found, and the locator
    returns the seven-unit range of the key [payload] (offsets 2 to 9); the
    opening brace of the addressed object is at offset 12.  The flag asking
    for the brace is only honoured for a path that is one array index. *)
Theorem locate_required_at_property_returns_key :
  let document := jsonText "{'payload': {'x': 1}}" in
  let error := errorAt "/payload" "required" [(js "missingProperty", JStr (js "id"))] in
  locate document error = Returned (Some (mkRange (mkPosition 0 2) (mkPosition 0 9)))
  /\ findObjectAtPath document document (js "payload") true
     = Some (keyRange document 1 7)
  /\ substring 2 9 document = js "payload"
  /\ substring 12 13 document = [LBRACE]
  /\ braceRange document 12 = mkRange (mkPosition 0 12) (mkPosition 0 13).
Proof. vm_compute. done. Qed.

(** ** The validation orchestrator *)

Section Orchestrator.
Context `{C : Collaborators}.

(** The reference check in closed form: one error per reference that does
    not resolve, in the order of the references. *)
Lemma checkReferences_closed r refs v :
  checkReferences r refs v
  = mkResult (valid v && forallb (refExists r) refs)
             (errors v ++ map referenceError
                              (List.filter (fun ref => negb (refExists r ref)) refs)).
Proof.
  unfold checkReferences. revert v.
  induction refs as [|ref refs IH]; intros [ok errs]; simpl.
  - by rewrite andb_true_r, app_nil_r.
  - rewrite IH. destruct (refExists r ref); simpl.
    + done.
    + by rewrite andb_false_r, <- app_assoc.
Qed.

Lemma checkReferences_resolved r refs :
  Forall (fun ref => refExists r ref = true) refs ->
  checkReferences r refs (mkResult true []) = mkResult true [].
Proof.
  intros Hall. rewrite checkReferences_closed. simpl.
  induction Hall as [|ref refs Href Hall IH]; simpl; [done|].
  rewrite Href. simpl. done.
Qed.

(** In a restricted host the result is that of the reference check: the
    check is made although the engine is skipped. *)
Lemma validateResult_restricted g r e :
  restrictedHost g = true ->
  validateResult g r e
  = mkResult (forallb (refExists r) (gtsRefs e))
             (map referenceError
                  (List.filter (fun ref => negb (refExists r ref)) (gtsRefs e))).
Proof.
  intros Hg. unfold validateResult. rewrite Hg. by rewrite checkReferences_closed.
Qed.

Lemma keyword_referenceError ref : keyword (referenceError ref) = [].
Proof. done. Qed.

(** C7. In a host without restriction, an object that declares no schema
    identifier and whose references all resolve is left valid with no
    error; an object that declares a schema identifier absent from the
    schema index is marked invalid and gets, after the errors of the
    reference check, the one error of keyword [schema] that carries the
    identifier.  The result is written without the engine: no structural
    validation takes place. *)
Theorem validateEntity_object_schema g r e :
  restrictedHost g = false ->
  class e = IsJsonObj ->
  (noSchemaId e = true ->
   Forall (fun ref => refExists r ref = true) (gtsRefs e) ->
   validation (validateEntity g r e) = Some (mkResult true []))
  /\ (forall sid,
        schemaId e = Some sid -> sid <> [] -> jsonSchemas r !! sid = None ->
        exists v,
          validation (validateEntity g r e) = Some v
          /\ valid v = false
          /\ errors v
             = errors (checkReferences r (gtsRefs e) (mkResult true []))
               ++ [schemaNotFoundError sid]
          /\ List.filter (fun err => bool_decide (keyword err = js "schema")) (errors v)
             = [schemaNotFoundError sid]
          /\ param (js "schemaId") (params (schemaNotFoundError sid)) = Some (JStr sid)).
Proof.
  intros Hg Hclass. split.
  - intros Hno Hrefs. simpl. f_equal.
    unfold validateResult. rewrite Hg, Hclass, Hno.
    by apply checkReferences_resolved.
  - intros sid Hsid Hne Hlookup.
    eexists. split; [reflexivity|].
    unfold validateResult. rewrite Hg, Hclass.
    unfold noSchemaId, resolveSchema. rewrite Hsid.
    destruct sid as [|c sid]; [done|]. simpl default. rewrite Hlookup.
    cbn [valid errors]. split; [done|]. split; [done|]. split; [|done].
    assert (Hnil : forall l, List.filter
              (fun err => bool_decide (keyword err = js "schema"))
              (map referenceError l) = []).
    { induction l as [|x l IH]; [done|]. cbn [List.filter map].
      rewrite bool_decide_eq_false_2; [exact IH | by rewrite keyword_referenceError]. }
    rewrite checkReferences_closed. cbn [valid errors app].
    rewrite List.filter_app, Hnil. reflexivity.
Qed.
End Orchestrator.

Lemma validateEntity_object_schema_witness :
  let r := ingestFiles (C := demo) plainHost [fileObject] demoConfig newRegistry in
  let e := mkEntity (js "o1") IsJsonObj (newJsonFile (C := demo) (js "o.json") (js "o.json") JNull)
                    None JNull (Some (js "sch")) [] true None in
  (noSchemaId e = true ->
   Forall (fun ref => refExists r ref = true) (gtsRefs e) ->
   validation (validateEntity (C := demo) plainHost r e) = Some (mkResult true []))
  /\ (forall sid,
        schemaId e = Some sid -> sid <> [] -> jsonSchemas r !! sid = None ->
        exists v,
          validation (validateEntity (C := demo) plainHost r e) = Some v
          /\ valid v = false
          /\ errors v
             = errors (checkReferences r (gtsRefs e) (mkResult true []))
               ++ [schemaNotFoundError sid]
          /\ List.filter (fun err => bool_decide (keyword err = js "schema")) (errors v)
             = [schemaNotFoundError sid]
          /\ param (js "schemaId") (params (schemaNotFoundError sid)) = Some (JStr sid)).
Proof.
  intros r e.
  apply (validateEntity_object_schema (C := demo) plainHost r e); reflexivity.
Defined.

Example validateEntity_schema_not_found :
  let r := ingestFiles (C := demo) plainHost [fileObject] demoConfig newRegistry in
  (validation <$> jsonObjs r !! js "o1")
  = Some (Some (mkResult false
        [referenceError (mkRef (js "gone") (js "ref")); schemaNotFoundError (js "sch")])).
Proof. vm_compute. reflexivity. Qed.

Section ReferenceErrors.
Context `{C : Collaborators}.

Lemma notFoundErrors_map i refs :
  filter (fun err => keyword err = []
                     /\ message err = js "GTS reference not found: " ++ i
                     /\ paramString (js "gtsId") (params err) = Some i)
         (map referenceError refs)
  = map referenceError (filter (fun ref => ref_id ref = i) refs).
Proof.
  induction refs as [|ref refs IH]; [done|].
  cbn [map]. rewrite !filter_cons, IH.
  destruct (decide (ref_id ref = i)) as [Heq | Hne].
  - rewrite decide_True; [done|]. subst i. repeat split; reflexivity.
  - rewrite decide_False; [done|]. intros (_ & Hmsg & _).
    cbn [message referenceError] in Hmsg. by apply app_inv_head in Hmsg.
Qed.

(** What holds of the reference check where the engine is skipped: the
    errors that report an identifier are one per reference to it when it is
    in neither index, and none when it is in one. *)
Lemma notFoundErrors_restricted g r e i :
  restrictedHost g = true ->
  notFoundErrors i (validateResult g r e)
  = if bool_decide (is_Some (jsonSchemas r !! i)) || bool_decide (is_Some (jsonObjs r !! i))
    then []
    else map referenceError (filter (fun ref => ref_id ref = i) (gtsRefs e)).
Proof.
  intros Hg. rewrite validateResult_restricted by done.
  unfold notFoundErrors. cbn [errors]. rewrite notFoundErrors_map.
  assert (Hexists : forall ref, ref_id ref = i ->
            refExists r ref
            = bool_decide (is_Some (jsonSchemas r !! i))
              || bool_decide (is_Some (jsonObjs r !! i))).
  { by intros ref <-. }
  destruct (_ || _) eqn:E.
  - replace (filter (fun ref => ref_id ref = i)
               (List.filter (fun ref => negb (refExists r ref)) (gtsRefs e)))
      with (@nil GtsRef); [done|].
    induction (gtsRefs e) as [|ref refs IH]; cbn [List.filter]; [done|].
    destruct (refExists r ref) eqn:Eref; cbn [negb]; [exact IH|].
    rewrite filter_cons, decide_False; [exact IH|].
    intros Hid. rewrite (Hexists ref Hid) in Eref. done.
  - f_equal.
    induction (gtsRefs e) as [|ref refs IH]; cbn [List.filter]; [done|].
    rewrite (filter_cons _ ref refs).
    destruct (decide (ref_id ref = i)) as [Hid | Hne].
    + rewrite (Hexists ref Hid). cbn [negb].
      rewrite filter_cons, decide_True by done. by rewrite IH.
    + destruct (negb _); [|exact IH].
      rewrite filter_cons, decide_False by done. exact IH.
Qed.
End ReferenceErrors.

(** C2. The schema [sch] requires a field [name]; the object [o1] lacks it
    and refers to [gone], which is in neither index.  In a host without
    restriction the result of [o1] holds the one [required] error of the
    engine and no error for the missing reference: the list written by the
    reference check is replaced by the formatted errors of the engine.  In
    the restricted host the same object has its one error for [gone]. *)
Theorem validateEntity_drops_reference_errors :
  let r := ingestFiles (C := demo) plainHost [fileSchema; fileObject] demoConfig newRegistry in
  exists e,
    jsonObjs r !! js "o1" = Some e
    /\ gtsRefs e = [mkRef (js "gone") (js "ref")]
    /\ jsonSchemas r !! js "gone" = None
    /\ jsonObjs r !! js "gone" = None
    /\ validation (validateEntity (C := demo) plainHost r e)
       = Some (mkResult false
            [mkError [SLASH] (js "#/required") (js "required")
                     (js "missing required property 'name'")
                     [(js "missingProperty", str "name")] None])
    /\ notFoundErrors (js "gone") (validateResult (C := demo) plainHost r e) = []
    /\ notFoundErrors (js "gone") (validateResult (C := demo) webviewHost r e)
       = [referenceError (mkRef (js "gone") (js "ref"))].
Proof.
  eexists. split; [vm_compute; reflexivity|].
  vm_compute. repeat split.
Qed.

(** ** The fetch cache *)

Section FetchCache.
Context `{C : Collaborators}.

Lemma fetchJson_hit p st x :
  fetchCache st.1 !! fetchKey p = Some x -> fetchJson p false st = (x, st).
Proof. destruct st as [r attempts]. simpl. intros H. unfold fetchJson. by rewrite H. Qed.

Lemma fetchJson_unforced_keeps p st key x :
  fetchCache st.1 !! key = Some x ->
  fetchCache (fetchJson p false st).2.1 !! key = Some x.
Proof.
  destruct st as [r attempts]. simpl. intros H. unfold fetchJson.
  destruct (fetchCache r !! fetchKey p) eqn:E; simpl; [done|].
  rewrite lookup_insert_ne; [done|]. congruence.
Qed.

Lemma fetchAll_keeps ps st key x :
  fetchCache st.1 !! key = Some x -> fetchCache (fetchAll ps st).1 !! key = Some x.
Proof.
  unfold fetchAll. revert st. induction ps as [|p ps IH]; intros st H; [done|].
  simpl. apply IH. by apply fetchJson_unforced_keeps.
Qed.

(** C10. When the retrieval made by a call of [fetchJson] fails, the call
    returns the failure and leaves it in the cache under the key with the
    leading slash.  After any further calls without [force], a call without
    [force] for the same key returns that same failure and changes nothing:
    no retrieval is attempted.  A call with [force] makes a new retrieval
    and puts what it settles to in place of the cached entry. *)
Theorem fetchJson_failure_stays_cached p force r attempts msg :
  force = true \/ fetchCache r !! fetchKey p = None ->
  retrieve attempts p (fetchKey p) = Thrown msg ->
  let st1 := (fetchJson p force (r, attempts)).2 in
  (fetchJson p force (r, attempts)).1 = Thrown msg
  /\ fetchCache st1.1 !! fetchKey p = Some (Thrown msg)
  /\ forall ps p',
       fetchKey p' = fetchKey p ->
       let st2 := fetchAll ps st1 in
       fetchJson p' false st2 = (Thrown msg, st2)
       /\ fetchJson p' true st2
          = (retrieve st2.2 p' (fetchKey p),
             (setFetchCache (<[fetchKey p := retrieve st2.2 p' (fetchKey p)]>
                               (fetchCache st2.1)) st2.1,
              fetchKey p :: st2.2)).
Proof.
  intros Hmiss Hfail st1.
  assert (Hcall : fetchJson p force (r, attempts)
                 = (Thrown msg,
                    (setFetchCache (<[fetchKey p := Thrown msg]> (fetchCache r)) r,
                     fetchKey p :: attempts))).
  { unfold fetchJson. rewrite Hfail.
    destruct Hmiss as [-> | ->]; [done|]. by destruct force. }
  subst st1. rewrite Hcall. cbn [fst snd].
  assert (Hcached : fetchCache (setFetchCache (<[fetchKey p := Thrown msg]> (fetchCache r)) r)
                    !! fetchKey p = Some (Thrown msg)).
  { simpl. apply lookup_insert_eq. }
  split; [done|]. split; [done|].
  intros ps p' Hkey.
  pose proof (fetchAll_keeps ps
                (setFetchCache (<[fetchKey p := Thrown msg]> (fetchCache r)) r,
                 fetchKey p :: attempts) _ _ Hcached) as Hkept.
  destruct (fetchAll ps _) as [r2 attempts2]. split.
  - apply fetchJson_hit. by rewrite Hkey.
  - unfold fetchJson. by rewrite Hkey.
Qed.
End FetchCache.

Lemma fetchJson_failure_stays_cached_witness :
  let p := js "missing.json" in
  let st1 := (fetchJson (C := demo) p false (newRegistry, [])).2 in
  (fetchJson (C := demo) p false (newRegistry, [])).1
  = Thrown (js "Failed to fetch missing.json: 404 Not Found")
  /\ fetchCache st1.1 !! js "/missing.json"
     = Some (Thrown (js "Failed to fetch missing.json: 404 Not Found"))
  /\ fetchJson (C := demo) (js "/missing.json") false st1
     = (Thrown (js "Failed to fetch missing.json: 404 Not Found"), st1)
  /\ (fetchJson (C := demo) (js "/missing.json") true st1).1 = Returned JNull.
Proof.
  intros p st1.
  destruct (fetchJson_failure_stays_cached (C := demo) p false newRegistry []
              (js "Failed to fetch missing.json: 404 Not Found"))
    as (H1 & H2 & H3).
  - right. reflexivity.
  - reflexivity.
  - split; [exact H1|]. split; [exact H2|].
    destruct (H3 [] (js "/missing.json") eq_refl) as [H4 H5].
    split; [exact H4|]. exact (eq_trans (f_equal fst H5) eq_refl).
Defined.

(** ** The indices under invalidation and ingestion *)

Lemma deleteIds_lookup_Some (l : list Entity) (m : gmap jsstring Entity) k e :
  deleteIds l m !! k = Some e -> m !! k = Some e /\ k ∉ id <$> l.
Proof.
  unfold deleteIds. revert m. induction l as [|x l IH]; intros m H; simpl in *.
  - split; [done|]. apply not_elem_of_nil.
  - apply IH in H as [H Hnotin].
    destruct (decide (id x = k)) as [<- | Hne].
    + by rewrite lookup_delete_eq in H.
    + rewrite lookup_delete_ne in H by done. split; [done|].
      rewrite not_elem_of_cons. split; [congruence | done].
Qed.

Lemma deleteIds_lookup_notin (l : list Entity) (m : gmap jsstring Entity) k :
  k ∉ id <$> l -> deleteIds l m !! k = m !! k.
Proof.
  unfold deleteIds. revert m. induction l as [|x l IH]; intros m H; simpl in *; [done|].
  apply not_elem_of_cons in H as [Hne Hnotin].
  rewrite IH by done. by rewrite lookup_delete_ne.
Qed.

Lemma deleteIds_lookup_in (l : list Entity) (m : gmap jsstring Entity) k :
  k ∈ id <$> l -> deleteIds l m !! k = None.
Proof.
  intros Hin. destruct (deleteIds l m !! k) eqn:E; [|done].
  apply deleteIds_lookup_Some in E as [_ Hnotin]. done.
Qed.

Lemma invalidateFile_fields p r :
  jsonFiles (invalidateFile p r) = delete p (jsonFiles r)
  /\ invalidFiles (invalidateFile p r) = delete p (invalidFiles r)
  /\ jsonObjs (invalidateFile p r) = purgeIndex p (jsonObjs r) (jsonFileObjs r)
  /\ jsonFileObjs (invalidateFile p r) = purgePerFile p (jsonFileObjs r)
  /\ jsonSchemas (invalidateFile p r) = purgeIndex p (jsonSchemas r) (jsonFileSchemas r)
  /\ jsonFileSchemas (invalidateFile p r) = purgePerFile p (jsonFileSchemas r)
  /\ fetchCache (invalidateFile p r) = fetchCache r.
Proof.
  unfold invalidateFile, purgeIndex, purgePerFile. simpl.
  destruct (jsonFileObjs r !! p) eqn:E1; simpl;
    destruct (jsonFileSchemas r !! p) eqn:E2; simpl;
    rewrite ?insert_delete_eq; done.
Qed.

Lemma purge_consistent p index perFile :
  indexConsistent index perFile ->
  indexConsistent (purgeIndex p index perFile) (purgePerFile p perFile).
Proof.
  intros [Hidx Hper]. unfold purgeIndex, purgePerFile.
  destruct (perFile !! p) as [objs|] eqn:E; [|done].
  split.
  - intros k e Hk. apply deleteIds_lookup_Some in Hk as [Hk Hnotin].
    destruct (Hidx k e Hk) as (Hid & l & Hl & Hin). split; [done|].
    exists l. split; [|done].
    rewrite lookup_insert_ne; [done|]. intros Heq. rewrite <- Heq in Hl.
    simplify_eq. done.
  - intros q l e Hq Hin. destruct (decide (p = q)) as [<- | Hne].
    + rewrite lookup_insert_eq in Hq. injection Hq as <-. by apply elem_of_nil in Hin.
    + rewrite lookup_insert_ne in Hq by done. eauto.
Qed.

(** After the purge nothing owned by [p] is left in either index. *)
Lemma purge_leaves p index perFile :
  indexConsistent index perFile ->
  (forall k e, purgeIndex p index perFile !! k = Some e -> path (file e) <> p)
  /\ (forall q l e, purgePerFile p perFile !! q = Some l -> e ∈ l -> path (file e) <> p).
Proof.
  intros Hc. pose proof (purge_consistent p _ _ Hc) as [Hidx' Hper'].
  assert (Hempty : forall l e, purgePerFile p perFile !! p = Some l -> e ∉ l).
  { intros l e. unfold purgePerFile. destruct (perFile !! p) eqn:E.
    - rewrite lookup_insert_eq. intros [= <-]. apply not_elem_of_nil.
    - congruence. }
  split.
  - intros k e Hk Hp. destruct (Hidx' k e Hk) as (_ & l & Hl & Hin).
    rewrite Hp in Hl. apply list_elem_of_fmap in Hin as (e' & _ & He').
    by apply (Hempty l e').
  - intros q l e Hq Hin Hp. pose proof (Hper' q l e Hq Hin) as Hown.
    rewrite Hp in Hown. subst q. by apply (Hempty l e).
Qed.

Lemma insert_consistent p e index perFile :
  indexConsistent index perFile ->
  path (file e) = p ->
  indexConsistent (<[id e := e]> index) (<[p := default [] (perFile !! p) ++ [e]]> perFile).
Proof.
  intros [Hidx Hper] Hown. split.
  - intros k e0 Hk. destruct (decide (id e = k)) as [<- | Hne].
    + rewrite lookup_insert_eq in Hk. injection Hk as <-. split; [done|].
      rewrite Hown, lookup_insert_eq. eexists. split; [done|].
      rewrite fmap_app. apply elem_of_app. right. apply list_elem_of_singleton. done.
    + rewrite lookup_insert_ne in Hk by done.
      destruct (Hidx k e0 Hk) as (Hid & l & Hl & Hin). split; [done|].
      destruct (decide (p = path (file e0))) as [Hp | Hp].
      * rewrite <- Hp in *. rewrite lookup_insert_eq, Hl. eexists. split; [done|].
        simpl. rewrite fmap_app. apply elem_of_app. by left.
      * rewrite lookup_insert_ne by done. eauto.
  - intros q l e0 Hq Hin. destruct (decide (p = q)) as [<- | Hne].
    + rewrite lookup_insert_eq in Hq. injection Hq as <-.
      apply elem_of_app in Hin as [Hin | Hin].
      * destruct (perFile !! p) as [old|] eqn:E; simpl in Hin.
        -- eauto.
        -- by apply elem_of_nil in Hin.
      * apply list_elem_of_singleton in Hin as ->. done.
    + rewrite lookup_insert_ne in Hq by done. eauto.
Qed.

Lemma fmap_consistent (f : Entity -> Entity) index perFile :
  (forall e, id (f e) = id e /\ file (f e) = file e) ->
  indexConsistent index perFile ->
  indexConsistent (f <$> index) perFile.
Proof.
  intros Hf [Hidx Hper]. split; [|done].
  intros k e Hk. rewrite lookup_fmap in Hk.
  destruct (index !! k) as [e0|] eqn:E; simpl in Hk; [|done].
  injection Hk as <-. destruct (Hf e0) as [-> ->]. eauto.
Qed.

Section Reachable.
Context `{C : Collaborators}.

Lemma invalidateFile_consistent p r :
  ownershipConsistent r -> ownershipConsistent (invalidateFile p r).
Proof.
  intros [Hobjs Hschemas].
  destruct (invalidateFile_fields p r) as (_ & _ & Ho & Hfo & Hs & Hfs & _).
  unfold ownershipConsistent. rewrite Ho, Hfo, Hs, Hfs.
  split; by apply purge_consistent.
Qed.

Lemma invalidateFile_disjoint p r :
  filesDisjoint r -> filesDisjoint (invalidateFile p r).
Proof.
  intros Hd q.
  destruct (invalidateFile_fields p r) as (Hf & Hi & _). rewrite Hf, Hi.
  destruct (decide (p = q)) as [<- | Hne].
  - rewrite lookup_delete_eq. by intros [[] _].
  - rewrite !lookup_delete_ne by done. apply Hd.
Qed.

Lemma createEntity_fields jsonFile seq entityContent cfg e :
  createEntity jsonFile seq entityContent cfg = Returned (Some e) ->
  file e = jsonFile /\ listSequence e = seq /\ content e = entityContent
  /\ validation e = None.
Proof.
  unfold createEntity.
  destruct (recognize cfg jsonFile seq entityContent) as [[k|]|msg]; intros H;
    simplify_eq. done.
Qed.

Lemma indexEntity_consistent p e r :
  path (file e) = p -> ownershipConsistent r -> ownershipConsistent (indexEntity p e r).
Proof.
  intros Hown [Hobjs Hschemas]. unfold indexEntity, ownershipConsistent.
  destruct (class e); simpl; split; try done; by apply insert_consistent.
Qed.

Lemma indexEntity_files p e r :
  jsonFiles (indexEntity p e r) = jsonFiles r
  /\ invalidFiles (indexEntity p e r) = invalidFiles r.
Proof. unfold indexEntity. by destruct (class e). Qed.

Lemma processEntities_consistent p jsonFile cfg entities idx has r :
  path jsonFile = p ->
  ownershipConsistent r ->
  ownershipConsistent (processEntities p jsonFile cfg entities idx has r).1.
Proof.
  intros Hp. revert idx has r.
  induction entities as [|c entities IH]; intros idx has r Hr; simpl; [done|].
  destruct (createEntity jsonFile _ c cfg) as [[e|]|msg] eqn:E; simpl; [| by apply IH | done].
  apply createEntity_fields in E as (Hfile & _).
  destruct (isGtsEntity e); apply IH; [|done].
  apply indexEntity_consistent; [|done]. by rewrite Hfile.
Qed.

Lemma processEntities_files p jsonFile cfg entities idx has r :
  jsonFiles (processEntities p jsonFile cfg entities idx has r).1 = jsonFiles r
  /\ invalidFiles (processEntities p jsonFile cfg entities idx has r).1 = invalidFiles r.
Proof.
  revert idx has r.
  induction entities as [|c entities IH]; intros idx has r; simpl; [done|].
  destruct (createEntity jsonFile _ c cfg) as [[e|]|msg]; simpl; [| by apply IH | done].
  destruct (isGtsEntity e); [|by apply IH].
  destruct (IH (S idx) true (indexEntity p e r)) as [-> ->].
  apply indexEntity_files.
Qed.

Lemma processFileContent_consistent p nm c cfg r :
  ownershipConsistent r -> ownershipConsistent (processFileContent p nm c cfg r).1.
Proof.
  intros Hr. apply (invalidateFile_consistent p) in Hr.
  unfold processFileContent.
  pose proof (processEntities_consistent p (newJsonFile p nm c) cfg (normalizeToArray c)
                0 false (invalidateFile p r) eq_refl Hr) as Hpe.
  destruct (file_validation (newJsonFile p nm c)) as [[[] errs]|];
    try exact Hr;
    destruct (processEntities _ _ _ _ _ _ _) as [r' [has|msg]]; simpl in *;
    try done; by destruct (_ && _).
Qed.

Lemma processFileContent_disjoint p nm c cfg r :
  filesDisjoint r -> filesDisjoint (processFileContent p nm c cfg r).1.
Proof.
  intros Hr. apply (invalidateFile_disjoint p) in Hr.
  assert (Hnone : jsonFiles (invalidateFile p r) !! p = None
                  /\ invalidFiles (invalidateFile p r) !! p = None).
  { destruct (invalidateFile_fields p r) as (Hf & Hi & _).
    rewrite Hf, Hi. by rewrite !lookup_delete_eq. }
  destruct Hnone as [Hjf Hif].
  assert (Hvalid : filesDisjoint
            (let '(r', out) := processEntities p (newJsonFile p nm c) cfg
                                 (normalizeToArray c) 0 false (invalidateFile p r) in
             match out with
             | Thrown _ => r'
             | Returned has =>
                 if has && negb (bool_decide (is_Some (jsonFiles r' !! p)))
                 then setJsonFiles (<[p := newJsonFile p nm c]> (jsonFiles r')) r'
                 else r'
             end)).
  { pose proof (processEntities_files p (newJsonFile p nm c) cfg (normalizeToArray c)
                  0 false (invalidateFile p r)) as [Hf Hi].
    destruct (processEntities _ _ _ _ _ _ _) as [r' [has|msg]]; simpl in *.
    - destruct (_ && _).
      + intros q. simpl. rewrite Hi. destruct (decide (p = q)) as [<- | Hne].
        * rewrite Hif. by intros [_ []].
        * rewrite lookup_insert_ne by done. rewrite Hf. apply Hr.
      + intros q. rewrite Hf, Hi. apply Hr.
    - intros q. rewrite Hf, Hi. apply Hr. }
  unfold processFileContent.
  destruct (file_validation (newJsonFile p nm c)) as [[[] errs]|].
  - destruct (processEntities _ _ _ _ _ _ _) as [r' [has|msg]]; simpl in *;
      [by destruct (_ && _) | done].
  - intros q. simpl. destruct (decide (p = q)) as [<- | Hne].
    + rewrite Hjf. by intros [[] _].
    + rewrite lookup_insert_ne by done. apply Hr.
  - destruct (processEntities _ _ _ _ _ _ _) as [r' [has|msg]]; simpl in *;
      [by destruct (_ && _) | done].
Qed.

Lemma validateEntities_consistent g r :
  ownershipConsistent r -> ownershipConsistent (validateEntities g r).
Proof.
  intros [Hobjs Hschemas]. unfold validateEntities, ownershipConsistent. simpl.
  split; by apply fmap_consistent.
Qed.

Lemma validateEntities_files g r :
  jsonFiles (validateEntities g r) = jsonFiles r
  /\ invalidFiles (validateEntities g r) = invalidFiles r.
Proof. done. Qed.

Lemma processFiles_preserves (P : Registry -> Prop) files cfg r :
  (forall p nm c r, P r -> P (processFileContent p nm c cfg r).1) ->
  P r -> P (processFiles files cfg r).
Proof.
  intros Hstep. unfold processFiles. revert r.
  induction files as [|f files IH]; intros r Hr; simpl; [done|].
  apply IH. destruct (inToolingDirectory (in_path f)); [done|]. by apply Hstep.
Qed.

Lemma ingestFiles_consistent g files cfg r :
  ownershipConsistent r -> ownershipConsistent (ingestFiles g files cfg r).
Proof.
  intros Hr. unfold ingestFiles. apply validateEntities_consistent.
  apply processFiles_preserves; [|done].
  intros. by apply processFileContent_consistent.
Qed.

Lemma ingestFiles_disjoint g files cfg r :
  filesDisjoint r -> filesDisjoint (ingestFiles g files cfg r).
Proof.
  intros Hr. unfold ingestFiles. intros q.
  destruct (validateEntities_files g (processFiles files (getGtsConfig cfg) r)) as [-> ->].
  revert q. change (filesDisjoint (processFiles files (getGtsConfig cfg) r)).
  apply (processFiles_preserves filesDisjoint); [|done].
  intros. by apply processFileContent_disjoint.
Qed.

Lemma run_preserves (P : Registry -> Prop) g ops :
  P newRegistry ->
  (forall r op, P r -> P (step g r op)) ->
  P (run g ops).
Proof.
  intros Hnew Hstep. unfold run. generalize newRegistry Hnew.
  induction ops as [|op ops IH]; intros r Hr; simpl; [done|].
  apply IH. by apply Hstep.
Qed.

Lemma run_consistent g ops : ownershipConsistent (run g ops).
Proof.
  apply run_preserves.
  - split; (split; [intros k e H | intros q l e H _]; simpl in H; by rewrite lookup_empty in H).
  - intros r [files cfg | p] Hr; simpl.
    + by apply ingestFiles_consistent.
    + by apply invalidateFile_consistent.
Qed.

(** C8. Whatever the sequence of ingestions and invalidations applied to a
    fresh registry, no path is a key of both [jsonFiles] and
    [invalidFiles]. *)
Theorem run_files_disjoint g ops : filesDisjoint (run g ops).
Proof.
  apply run_preserves.
  - intros q. simpl. rewrite lookup_empty. by intros [[] _].
  - intros r [files cfg | p] Hr; simpl.
    + by apply ingestFiles_disjoint.
    + by apply invalidateFile_disjoint.
Qed.

(** C3, as amended.  In every registry reached from a fresh one by
    ingestions and invalidations, after [invalidateFile(p)] no entity owned
    by [p] is left in the object index, the schema index or a per-file list,
    and [p] is a key of neither [jsonFiles] nor [invalidFiles]; each
    per-file index maps [p] to the empty list if [p] was one of its keys,
    and has no entry for [p] otherwise. *)
Theorem invalidateFile_complete g ops p :
  let r := run g ops in
  let r' := invalidateFile p r in
  invalidationLeaves p r'
  /\ jsonFileObjs r' !! p
     = (if bool_decide (is_Some (jsonFileObjs r !! p)) then Some [] else None)
  /\ jsonFileSchemas r' !! p
     = (if bool_decide (is_Some (jsonFileSchemas r !! p)) then Some [] else None).
Proof.
  intros r r'. subst r'.
  destruct (run_consistent g ops) as [Hobjs Hschemas]. fold r in Hobjs, Hschemas.
  destruct (invalidateFile_fields p r) as (Hf & Hi & Ho & Hfo & Hs & Hfs & _).
  unfold invalidationLeaves. rewrite Hf, Hi, Ho, Hfo, Hs, Hfs.
  destruct (purge_leaves p _ _ Hobjs) as [H1 H2].
  destruct (purge_leaves p _ _ Hschemas) as [H3 H4].
  repeat split; try done; try apply lookup_delete_eq.
  - unfold purgePerFile. destruct (jsonFileObjs r !! p) eqn:E.
    + rewrite lookup_insert_eq. by rewrite bool_decide_eq_true_2.
    + rewrite E. by rewrite bool_decide_eq_false_2 by (by intros []).
  - unfold purgePerFile. destruct (jsonFileSchemas r !! p) eqn:E.
    + rewrite lookup_insert_eq. by rewrite bool_decide_eq_true_2.
    + rewrite E. by rewrite bool_decide_eq_false_2 by (by intros []).
Qed.
End Reachable.

(** C3, as stated, fails: after the file [a.json], which holds one object
    and no schema, is ingested and then invalidated, the per-file index of
    schemas has no entry for it, where the statement wants the empty list. *)
Lemma invalidateFile_leaves_no_marker :
  ~ invalidationComplete_stated
      (run (C := demo) plainHost [Ingest (C := demo) [fileA] demoConfig]) (js "a.json").
Proof. intros (_ & _ & H). vm_compute in H. discriminate H. Qed.

Example invalidateFile_objects_marker :
  let r := run (C := demo) plainHost [Ingest (C := demo) [fileA] demoConfig] in
  jsonFileObjs (invalidateFile (js "a.json") r) !! js "a.json" = Some []
  /\ jsonFileSchemas (invalidateFile (js "a.json") r) !! js "a.json" = None.
Proof. vm_compute. done. Qed.

(** C9. The files [a.json] and [b.json] each hold an object of identifier
    [x] and are ingested in that order: the object index holds the object
    of [b.json].  Invalidating [a.json] deletes the identifiers listed for
    [a.json] and with them the object owned by [b.json], which is still
    listed under [b.json], a file still registered. *)
Theorem invalidateFile_removes_other_owner :
  let r := run (C := demo) plainHost
               [Ingest (C := demo) [fileA] demoConfig; Ingest (C := demo) [fileB] demoConfig] in
  let r' := invalidateFile (js "a.json") r in
  ((fun e => path (file e)) <$> (jsonObjs r !! js "x")) = Some (js "b.json")
  /\ jsonObjs r' !! js "x" = None
  /\ ((fun l => map id l) <$> (jsonFileObjs r' !! js "b.json")) = Some [js "x"]
  /\ is_Some (jsonFiles r' !! js "b.json").
Proof. vm_compute. repeat split. by eexists. Qed.

(** ** Array positions and the surfaced paths *)

Section Sequence.
Context `{C : Collaborators}.

Lemma invalidateFile_sequenced p r :
  sequenceConsistent r -> sequenceConsistent (invalidateFile p r).
Proof.
  intros [Ho Hs].
  destruct (invalidateFile_fields p r) as (_ & _ & Eo & _ & Es & _).
  unfold sequenceConsistent. rewrite Eo, Es. unfold purgeIndex.
  split; intros k e Hk.
  - destruct (jsonFileObjs r !! p); [apply deleteIds_lookup_Some in Hk as [Hk _]|]; eauto.
  - destruct (jsonFileSchemas r !! p); [apply deleteIds_lookup_Some in Hk as [Hk _]|]; eauto.
Qed.

Lemma indexEntity_sequenced p e r :
  sequenced e -> sequenceConsistent r -> sequenceConsistent (indexEntity p e r).
Proof.
  intros He [Ho Hs]. unfold indexEntity, sequenceConsistent.
  destruct (class e); simpl; split; try done; intros k e0 Hk;
    (destruct (decide (id e = k)) as [<- | Hne];
     [rewrite lookup_insert_eq in Hk; by simplify_eq
     |rewrite lookup_insert_ne in Hk by done; eauto]).
Qed.

Lemma processEntities_sequenced p jsonFile cfg entities idx has r :
  entities = drop idx (normalizeToArray (file_content jsonFile)) ->
  sequenceConsistent r ->
  sequenceConsistent (processEntities p jsonFile cfg entities idx has r).1.
Proof.
  revert idx has r.
  induction entities as [|c entities IH]; intros idx has r Hdrop Hr; simpl; [done|].
  assert (Hat : normalizeToArray (file_content jsonFile) !! idx = Some c).
  { rewrite <- (Nat.add_0_r idx), <- lookup_drop, <- Hdrop. done. }
  assert (Hnext : entities = drop (S idx) (normalizeToArray (file_content jsonFile))).
  { rewrite (drop_S _ _ _ Hat) in Hdrop. by simplify_eq. }
  destruct (createEntity jsonFile _ c cfg) as [[e|]|msg] eqn:E; simpl; [| by apply IH | done].
  apply createEntity_fields in E as (Hfile & Hseq & Hcontent & _).
  destruct (isGtsEntity e); apply IH; try done.
  apply indexEntity_sequenced; [|done].
  unfold sequenced. rewrite Hfile, Hseq, Hcontent.
  destruct (file_content jsonFile); simpl in *; try done.
  exists idx. done.
Qed.

Lemma processFileContent_sequenced p nm c cfg r :
  sequenceConsistent r -> sequenceConsistent (processFileContent p nm c cfg r).1.
Proof.
  intros Hr. apply (invalidateFile_sequenced p) in Hr.
  unfold processFileContent.
  pose proof (processEntities_sequenced p (newJsonFile p nm c) cfg (normalizeToArray c)
                0 false (invalidateFile p r) eq_refl Hr) as Hpe.
  destruct (file_validation (newJsonFile p nm c)) as [[[] errs]|];
    try exact Hr;
    destruct (processEntities _ _ _ _ _ _ _) as [r' [has|msg]]; simpl in *;
    try done; by destruct (_ && _).
Qed.

Lemma validateEntities_sequenced g r :
  sequenceConsistent r -> sequenceConsistent (validateEntities g r).
Proof.
  intros [Ho Hs]. unfold validateEntities, sequenceConsistent. simpl.
  split; intros k e Hk; rewrite lookup_fmap in Hk.
  - destruct (jsonObjs r !! k) as [e0|] eqn:E; simpl in Hk; simplify_eq.
    exact (Ho k e0 E).
  - destruct (jsonSchemas r !! k) as [e0|] eqn:E; simpl in Hk; simplify_eq.
    exact (Hs k e0 E).
Qed.

Lemma run_sequenced g ops : sequenceConsistent (run g ops).
Proof.
  apply run_preserves.
  - split; intros k e H; simpl in H; by rewrite lookup_empty in H.
  - intros r [files cfg | p] Hr; simpl.
    + unfold ingestFiles. apply validateEntities_sequenced.
      apply processFiles_preserves; [|done].
      intros. by apply processFileContent_sequenced.
    + by apply invalidateFile_sequenced.
Qed.
End Sequence.

Lemma startsWith_app s t : startsWith s (s ++ t) = true.
Proof. induction s as [|c s IH]; simpl; [done|]. by rewrite N.eqb_refl. Qed.

Lemma prefixError_path seq err :
  instancePath (prefixError seq err) = prefixedPath seq (instancePath err).
Proof.
  unfold prefixError, prefixedPath. simpl.
  destruct (stripLeadingSlash (instancePath err)); [by rewrite app_nil_r | done].
Qed.

Lemma prefixedPath_slash seq rest :
  rest <> [] -> prefixedPath seq (SLASH :: rest) = SLASH :: decimal seq ++ SLASH :: rest.
Proof. intros Hne. unfold prefixedPath. simpl. by destruct rest. Qed.

Lemma prefixedPath_root seq p :
  p = [] \/ p = [SLASH] -> prefixedPath seq p = SLASH :: decimal seq.
Proof. intros [-> | ->]; unfold prefixedPath; simpl; by rewrite app_nil_r. Qed.

Lemma prefixedPath_starts seq p :
  startsWith (SLASH :: decimal seq) (prefixedPath seq p) = true.
Proof.
  unfold prefixedPath.
  change (SLASH :: decimal seq ++ ?t) with ((SLASH :: decimal seq) ++ t).
  apply startsWith_app.
Qed.

Lemma prefixedPath_orElse seq p :
  prefixedPath seq (orElse p [SLASH]) = prefixedPath seq p.
Proof. by destruct p. Qed.

Section Surfaced.
Context `{C : Collaborators}.

Lemma reportedAt_prefixed seq err reported :
  reportedAt err reported ->
  instancePath (prefixError seq err) = prefixedPath seq reported.
Proof.
  intros H. rewrite prefixError_path.
  destruct H as [eo err Hformat | ref | msg | sid | msg]; try done.
  unfold formatValidationErrors in Hformat. simpl in Hformat. simplify_eq.
  simpl. apply prefixedPath_orElse.
Qed.

Lemma checkReferences_reported r refs v0 :
  (forall err, err ∈ errors v0 -> exists reported, reportedAt err reported) ->
  forall err, err ∈ errors (checkReferences r refs v0) ->
    exists reported, reportedAt err reported.
Proof.
  unfold checkReferences. revert v0.
  induction refs as [|ref refs IH]; intros v0 H0; simpl; [done|].
  apply IH. destruct (refExists r ref); [done|]. simpl.
  intros err Hin. apply elem_of_app in Hin as [Hin | Hin]; [by apply H0|].
  apply list_elem_of_singleton in Hin as ->.
  eexists. apply reportedByReferenceCheck.
Qed.

Lemma validateResult_reported g r e err :
  err ∈ errors (validateResult g r e) -> exists reported, reportedAt err reported.
Proof.
  assert (Hrefs : forall err,
             err ∈ errors (checkReferences r (gtsRefs e) (mkResult true [])) ->
             exists reported, reportedAt err reported).
  { apply checkReferences_reported. intros err0 H. by apply elem_of_nil in H. }
  assert (Hpush : forall extra err,
             (exists reported, reportedAt extra reported) ->
             err ∈ errors (checkReferences r (gtsRefs e) (mkResult true [])) ++ [extra] ->
             exists reported, reportedAt err reported).
  { intros extra err0 Hextra Hin. apply elem_of_app in Hin as [Hin | Hin]; [by apply Hrefs|].
    by apply list_elem_of_singleton in Hin as ->. }
  unfold validateResult.
  destruct (restrictedHost g); [apply Hrefs|].
  destruct (class e); [| |apply Hrefs].
  - destruct (compileAsync _ _) as [validate|msg]; simpl; [apply Hrefs|].
    apply Hpush. eexists. apply reportedInvalidSchema.
  - destruct (noSchemaId e); [apply Hrefs|].
    destruct (resolveSchema _ _) as [schema|]; simpl;
      [|apply Hpush; eexists; apply reportedSchemaNotFound].
    destruct (compileAsync _ _) as [validate|msg]; simpl;
      [|apply Hpush; eexists; apply reportedValidationFailed].
    destruct (validate (content e)) as [[ok validateErrors]|msg]; simpl;
      [|apply Hpush; eexists; apply reportedValidationFailed].
    destruct ok; [apply Hrefs|]. destruct validateErrors as [errs|]; [|apply Hrefs].
    simpl. intros Hin. apply list_elem_of_fmap in Hin as (eo & -> & _).
    exists (eo_instancePath eo). by apply reportedByEngine.
Qed.

Lemma run_reported g ops k e v err :
  jsonObjs (run g ops) !! k = Some e \/ jsonSchemas (run g ops) !! k = Some e ->
  validation e = Some v ->
  err ∈ errors v ->
  exists reported, reportedAt err reported.
Proof.
  revert k e v err.
  apply (run_preserves (fun r => forall k e v err,
           jsonObjs r !! k = Some e \/ jsonSchemas r !! k = Some e ->
           validation e = Some v -> err ∈ errors v ->
           exists reported, reportedAt err reported)).
  - intros k e v err [H | H]; simpl in H; by rewrite lookup_empty in H.
  - intros r [files cfg | p] Hr k e v err Hk Hv Herr; simpl in Hk.
    + unfold ingestFiles, validateEntities in Hk. simpl in Hk.
      destruct Hk as [Hk | Hk]; rewrite lookup_fmap in Hk;
        destruct (_ !! k) as [e0|]; simpl in Hk; simplify_eq;
        simpl in Hv; simplify_eq; by eapply validateResult_reported.
    + destruct (invalidateFile_fields p r) as (_ & _ & Eo & _ & Es & _).
      rewrite Eo, Es in Hk. unfold purgeIndex in Hk.
      apply (Hr k e v err); [|done|done].
      destruct Hk as [Hk | Hk]; [left | right].
      * destruct (jsonFileObjs r !! p);
          [by apply deleteIds_lookup_Some in Hk as [Hk _] | done].
      * destruct (jsonFileSchemas r !! p);
          [by apply deleteIds_lookup_Some in Hk as [Hk _] | done].
Qed.

Lemma ownedBy_elem (index : gmap jsstring Entity) filePath k e :
  index !! k = Some e -> path (file e) = filePath -> e ∈ ownedBy filePath index.
Proof.
  intros Hk Hown. unfold ownedBy. apply list_elem_of_filter. split; [done|].
  apply list_elem_of_fmap. exists (k, e). split; [done|].
  by apply elem_of_map_to_list.
Qed.

Lemma surfacedErrors_elem r filePath e seq v err :
  invalidFileErrors r filePath = [] ->
  e ∈ ownedBy filePath (jsonObjs r) ++ ownedBy filePath (jsonSchemas r) ->
  listSequence e = Some seq ->
  validation e = Some v ->
  err ∈ errors v ->
  prefixError seq err ∈ surfacedErrors r filePath.
Proof.
  intros Hinv He Hseq Hv Herr. unfold surfacedErrors. rewrite Hinv.
  apply list_elem_of_In, in_concat. exists (entityErrors e). split.
  - apply in_map, list_elem_of_In, He.
  - unfold entityErrors. rewrite Hv, Hseq.
    destruct (errors v) as [|err0 errs] eqn:E; [by apply elem_of_nil in Herr|].
    apply in_map, list_elem_of_In, Herr.
Qed.

(** C4, as amended.  In a registry reached from a fresh one, an entity
    whose owning file holds an array has for [listSequence] the index at
    which the array holds its content, and each of its validation errors is
    surfaced for its file with the path made of a slash, that index, a slash
    and the stored path without its leading slash: the index followed by the
    stored path when that path starts with a slash and goes on, and the
    bare index when the stored path is empty or is the slash alone.  In
    every case the surfaced path starts with the slash and the index.  The
    error was reported at some path, by the engine, by the reference check
    or by [validateEntity] itself, and whatever that path was: the surfaced
    path is the index followed by the reported path, as the specification
    states, when the reported path is empty or is a slash followed by more;
    it is the bare index, without the slash that was reported, when the
    reported path is the slash alone. *)
Theorem surfaced_paths_prefixed g ops filePath k e items v err :
  let r := run g ops in
  jsonObjs r !! k = Some e \/ jsonSchemas r !! k = Some e ->
  path (file e) = filePath ->
  file_content (file e) = JArr items ->
  validation e = Some v ->
  err ∈ errors v ->
  invalidFileErrors r filePath = [] ->
  exists i,
    listSequence e = Some i
    /\ items !! i = Some (content e)
    /\ prefixError i err ∈ surfacedErrors r filePath
    /\ instancePath (prefixError i err) = prefixedPath i (instancePath err)
    /\ (forall rest, instancePath err = SLASH :: rest -> rest <> [] ->
          instancePath (prefixError i err) = SLASH :: decimal i ++ instancePath err)
    /\ (instancePath err = [] \/ instancePath err = [SLASH] ->
          instancePath (prefixError i err) = SLASH :: decimal i)
    /\ startsWith (SLASH :: decimal i) (instancePath (prefixError i err)) = true
    /\ keyword (prefixError i err) = keyword err
    /\ message (prefixError i err) = message err
    /\ params (prefixError i err) = params err
    /\ (exists reported, reportedAt err reported)
    /\ (forall reported, reportedAt err reported ->
          instancePath (prefixError i err) = prefixedPath i reported
          /\ (reported = [] \/ (exists rest, reported = SLASH :: rest /\ rest <> []) ->
                prefixing_stated i reported err)
          /\ (reported = [SLASH] ->
                instancePath (prefixError i err) = SLASH :: decimal i)).
Proof.
  intros r Hk Hown Hitems Hv Herr Hinv.
  assert (Hseq : sequenced e).
  { destruct (run_sequenced g ops) as [Ho Hs]. destruct Hk as [Hk | Hk]; eauto. }
  unfold sequenced in Hseq. rewrite Hitems in Hseq. destruct Hseq as (i & Hi & Hat).
  exists i. split; [done|]. split; [done|]. split.
  { apply (surfacedErrors_elem r filePath e i v err); try done.
    apply elem_of_app. destruct Hk as [Hk | Hk]; [left | right];
      by apply (ownedBy_elem _ filePath k e). }
  split; [apply prefixError_path|].
  split.
  { intros rest Hp Hne. rewrite prefixError_path, Hp. by apply prefixedPath_slash. }
  split; [rewrite prefixError_path; apply prefixedPath_root|].
  split; [rewrite prefixError_path; apply prefixedPath_starts|].
  do 3 (split; [done|]).
  split; [exact (run_reported g ops k e v err Hk Hv Herr)|].
  intros reported Hreported.
  pose proof (reportedAt_prefixed i err reported Hreported) as Hpath.
  split; [done|]. unfold prefixing_stated. rewrite Hpath. split.
  - intros [-> | (rest & -> & Hne)].
    + rewrite app_nil_r. apply prefixedPath_root. by left.
    + by apply prefixedPath_slash.
  - intros ->. by apply prefixedPath_root; right.
Qed.
End Surfaced.

(** C4, as stated, fails.  The document [l.json] holds an array of three
    objects, none of which names a schema, so that the engine is not run;
    the rules report that the third one refers as a whole, at the source
    path [root], to an identifier that the registry does not hold.  The
    reference check reports the error at the path of the root, a slash, and
    it is surfaced at [/2], not at [/2/] as prefixing the reported path
    would give. *)
Lemma prefixing_root_reference_counterexample :
  let r := ingestFiles (C := demoRoot) plainHost
             [mkInput (js "l.json") (js "l.json") arrayRootReference] () newRegistry in
  let ref := mkRef (js "gone") (js "root") in
  let err := referenceError ref in
  exists e,
    jsonObjs r !! js "e2" = Some e
    /\ listSequence e = Some 2
    /\ gtsRefs e = [ref]
    /\ (errors <$> validation e) = Some [err]
    /\ reportedAt (C := demoRoot) err (js "/")
    /\ instancePath err = js "/"
    /\ (instancePath <$> surfacedErrors r (js "l.json")) = [js "/2"]
    /\ (instancePath <$> openDocumentErrors (C := demoRoot) plainHost []
                           (js "l.json") (js "l.json") arrayRootReference) = [js "/2"]
    /\ ~ prefixing_stated 2 (js "/") err.
Proof.
  eexists. split; [vm_compute; reflexivity|].
  split; [reflexivity|]. split; [reflexivity|].
  split; [vm_compute; reflexivity|].
  split; [exact (reportedByReferenceCheck (C := demoRoot) (mkRef (js "gone") (js "root")))|].
  split; [reflexivity|]. split; [vm_compute; reflexivity|].
  split; [vm_compute; reflexivity|].
  unfold prefixing_stated. vm_compute. discriminate.
Qed.

Lemma surfaced_paths_prefixed_witness :
  let ops := [Ingest (C := demo)
                [fileSchema; mkInput (js "l.json") (js "l.json") arrayContent] demoConfig] in
  let r := run (C := demo) plainHost ops in
  let err := mkError [SLASH] (js "#/required") (js "required")
                     (js "missing required property 'name'")
                     [(js "missingProperty", str "name")] None in
  let e := mkEntity (js "e2") IsJsonObj
                    (newJsonFile (C := demo) (js "l.json") (js "l.json") arrayContent)
                    (Some 2) (obj [("id", str "e2"); ("type", str "sch")])
                    (Some (js "sch")) [] true (Some (mkResult false [err])) in
  exists i,
    listSequence e = Some i
    /\ normalizeToArray arrayContent !! i = Some (content e)
    /\ prefixError i err ∈ surfacedErrors r (js "l.json")
    /\ instancePath (prefixError i err) = prefixedPath i (instancePath err)
    /\ (forall rest, instancePath err = SLASH :: rest -> rest <> [] ->
          instancePath (prefixError i err) = SLASH :: decimal i ++ instancePath err)
    /\ (instancePath err = [] \/ instancePath err = [SLASH] ->
          instancePath (prefixError i err) = SLASH :: decimal i)
    /\ startsWith (SLASH :: decimal i) (instancePath (prefixError i err)) = true
    /\ keyword (prefixError i err) = keyword err
    /\ message (prefixError i err) = message err
    /\ params (prefixError i err) = params err
    /\ (exists reported, reportedAt (C := demo) err reported)
    /\ (forall reported, reportedAt (C := demo) err reported ->
          instancePath (prefixError i err) = prefixedPath i reported
          /\ (reported = [] \/ (exists rest, reported = SLASH :: rest /\ rest <> []) ->
                prefixing_stated i reported err)
          /\ (reported = [SLASH] ->
                instancePath (prefixError i err) = SLASH :: decimal i)).
Proof.
  intros ops r err e.
  apply (surfaced_paths_prefixed (C := demo) plainHost ops (js "l.json") (js "e2") e
           (normalizeToArray arrayContent) (mkResult false [err]) err).
  - left. vm_compute. reflexivity.
  - reflexivity.
  - reflexivity.
  - reflexivity.
  - simpl. constructor.
  - vm_compute. reflexivity.
Defined.

(** ** The scenarios of the specification *)

(** Missing required property at the root: the error is located at the
    first opening brace of the document. *)
Example scenario_required_at_root :
  locate (jsonText "{'name': 'x'}")
         (errorAt "" "required" [(js "missingProperty", str "id")])
  = Returned (Some (mkRange (mkPosition 0 0) (mkPosition 0 1))).
Proof. reflexivity. Qed.

(** Array element type mismatch: the error at [/1/x] is located at the key
    [x] of the second object. *)
Example scenario_array_element :
  let document := jsonText "[{'type':'foo','x':1},{'type':'bar','x':'nope'}]" in
  locate document (errorAt "/1/x" "type" [])
  = Returned (Some (mkRange (mkPosition 0 37) (mkPosition 0 38)))
  /\ substring 37 38 document = js "x"
  /\ substring 22 23 document = [LBRACE].
Proof. vm_compute. done. Qed.

(** Dangling schema reference: the error is located at the key [type]
    whose value is the missing identifier. *)
Example scenario_dangling_schema :
  let document := jsonText "{'id': 'o', 'type': 'gts:foo/bar'}" in
  locate document (errorAt "" "schema" [(js "schemaId", str "gts:foo/bar")])
  = Returned (Some (mkRange (mkPosition 0 13) (mkPosition 0 17)))
  /\ substring 13 17 document = js "type".
Proof. vm_compute. done. Qed.

(** The conversion of source paths to slash notation. *)
Example refInstancePath_examples :
  refInstancePath (js "contact.gtsIid") = js "/contact/gtsIid"
  /\ refInstancePath (js "gtsIid") = js "/gtsIid"
  /\ refInstancePath (js "items[10].ref") = js "/items/10/ref"
  /\ refInstancePath (js "a[b].c[]") = js "/a[b]/c[]"
  /\ refInstancePath (js "root") = js "/".
Proof. vm_compute. done. Qed.

(** A position on the second line of a document with CR LF line ends. *)
Example positionAt_lines :
  let document := [chr "{"; 13%N; 10%N; chr " "; chr "{"] in
  positionAt document 4 = mkPosition 1 1
  /\ offsetAt document (mkPosition 1 1) = 4
  /\ positionAt document 2 = mkPosition 0 1.
Proof. vm_compute. done. Qed.

(** * Further properties of the locator *)

Lemma drop_cons_inv {A} (l : list A) i c rest :
  c :: rest = drop i l -> l !! i = Some c /\ rest = drop (S i) l.
Proof.
  intros H.
  assert (Hc : l !! i = Some c).
  { rewrite <- (Nat.add_0_r i), <- lookup_drop, <- H. done. }
  split; [done|]. rewrite (drop_S _ _ _ Hc) in H. by simplify_eq.
Qed.


Lemma skipSpaces_le t : skipSpaces t <= length t.
Proof. induction t as [|c t IH]; simpl; [lia|]. destruct (is_space c); simpl; lia. Qed.



Lemma stripTrailingSlash_snoc p : stripTrailingSlash (p ++ [SLASH]) = p.
Proof.
  induction p as [|c p IH]; [done|].
  change ((c :: p) ++ [SLASH]) with (c :: (p ++ [SLASH])).
  destruct p as [|d p]; [done|].
  change (stripTrailingSlash (c :: (d :: p) ++ [SLASH]))
    with (c :: stripTrailingSlash ((d :: p) ++ [SLASH])).
  by rewrite IH.
Qed.

Lemma stripTrailingSlash_id p : List.last p 0%N <> SLASH -> stripTrailingSlash p = p.
Proof.
  induction p as [|c p IH]; [done|]. intros Hlast.
  destruct p as [|d p].
  - simpl in *. destruct (c =? SLASH)%N eqn:E; [|done].
    apply N.eqb_eq in E. done.
  - change (stripTrailingSlash (c :: d :: p)) with (c :: stripTrailingSlash (d :: p)).
    rewrite IH; done.
Qed.

Lemma stripLeadingSlash_id p : List.hd 0%N p <> SLASH -> stripLeadingSlash p = p.
Proof.
  destruct p as [|c p]; [done|]. simpl. intros Hc.
  destruct (c =? SLASH)%N eqn:E; [|done]. by apply N.eqb_eq in E.
Qed.

(** A path is read the same with or without one leading and one trailing
    slash: the four spellings of a path that neither starts nor ends with a
    slash are located alike. *)
Theorem findErrorPosition_slashes document error p :
  List.hd 0%N p <> SLASH ->
  List.last p 0%N <> SLASH ->
  findErrorPosition document (SLASH :: p) error = findErrorPosition document p error
  /\ findErrorPosition document (p ++ [SLASH]) error = findErrorPosition document p error
  /\ findErrorPosition document (SLASH :: p ++ [SLASH]) error
     = findErrorPosition document p error.
Proof.
  intros Hhd Hlast.
  assert (Hnorm : stripTrailingSlash (stripLeadingSlash p) = p).
  { by rewrite stripLeadingSlash_id, stripTrailingSlash_id. }
  assert (H1 : stripTrailingSlash (stripLeadingSlash (SLASH :: p)) = p).
  { simpl. by apply stripTrailingSlash_id. }
  assert (H2 : stripTrailingSlash (stripLeadingSlash (p ++ [SLASH])) = p).
  { destruct p as [|c p]; [done|].
    rewrite stripLeadingSlash_id; [apply stripTrailingSlash_snoc | exact Hhd]. }
  assert (H3 : stripTrailingSlash (stripLeadingSlash (SLASH :: p ++ [SLASH])) = p).
  { simpl. apply stripTrailingSlash_snoc. }
  unfold findErrorPosition. by rewrite Hnorm, H1, H2, H3.
Qed.

Lemma findErrorPosition_slashes_witness :
  let document := jsonText "{'users': {'email': 1}}" in
  let error := errorAt "" "type" [] in
  findErrorPosition document (js "/users/email") error
  = findErrorPosition document (js "users/email") error
  /\ findErrorPosition document (js "users/email/") error
     = findErrorPosition document (js "users/email") error
  /\ findErrorPosition document (js "/users/email/") error
     = findErrorPosition document (js "users/email") error.
Proof.
  intros document error.
  apply (findErrorPosition_slashes document error (js "users/email")).
  - vm_compute. discriminate.
  - vm_compute. discriminate.
Defined.

Lemma index_no_slash seg : isIndexSegment seg = true -> SLASH ∉ seg.
Proof.
  destruct seg as [|c seg]; [done|]. unfold isIndexSegment.
  intros Hall Hin. rewrite forallb_forall in Hall.
  apply list_elem_of_In, Hall in Hin. done.
Qed.

Lemma splitSlash_no_slash s : SLASH ∉ s -> splitSlash s = [s].
Proof.
  induction s as [|c s IH]; [done|]. intros Hnot.
  apply not_elem_of_cons in Hnot as [Hc Hs]. simpl.
  rewrite (IH Hs). destruct (c =? SLASH)%N eqn:E; [|done].
  apply N.eqb_eq in E. congruence.
Qed.

Lemma stripTrailingSlash_no_slash s : SLASH ∉ s -> stripTrailingSlash s = s.
Proof.
  intros Hnot. apply stripTrailingSlash_id. intros Hlast. apply Hnot.
  destruct s as [|c s]; [done|].
  rewrite <- Hlast. apply list_elem_of_In. clear. revert c.
  induction s as [|d s IH]; intros c; [by left|].
  right. apply (IH d).
Qed.

Lemma findNthObjectBracePosition_no_array text document index :
  text !! skipSpaces text <> Some LBRACKET ->
  findNthObjectBracePosition text document index = None.
Proof.
  intros Hno. unfold findNthObjectBracePosition, scanRootArray.
  destruct (text !! skipSpaces text) as [c|]; [|done].
  destruct (c =? LBRACKET)%N eqn:E; [|done].
  apply N.eqb_eq in E as ->. done.
Qed.

Lemma findPropertyAtPath_index text document seg :
  isIndexSegment seg = true ->
  findPropertyAtPath text document seg
  = findNthObjectBracePosition text document (parseInt seg).
Proof.
  intros Hseg. unfold findPropertyAtPath.
  rewrite (splitSlash_no_slash seg) by (by apply index_no_slash).
  rewrite Hseg. apply findNthObjectInArray_brace_position.
Qed.

(** A path that is one array index finds nothing in a document whose first
    unit after the white space is not an opening bracket: whatever the
    keyword, unless the [additionalProperties] rule applies, the locator
    returns [null] and raises nothing. *)
Theorem locate_index_without_root_array document error seg :
  document !! skipSpaces document <> Some LBRACKET ->
  instancePath error = SLASH :: seg ->
  isIndexSegment seg = true ->
  keywordIs error "additionalProperties"
  && hasParam (js "additionalProperty") (params error) = false ->
  locate document error = Returned None.
Proof.
  intros Hno Hpath Hseg Hadd.
  assert (Hnone : forall hb, findObjectAtPath document document seg hb = None).
  { intros hb. rewrite findObjectAtPath_index by done.
    by apply findNthObjectBracePosition_no_array. }
  assert (Hgen : locateGeneral document document seg = None).
  { unfold locateGeneral. destruct seg as [|c seg]; [done|].
    rewrite findPropertyAtPath_index by done.
    by apply findNthObjectBracePosition_no_array. }
  assert (Hreq : locateRequired document document seg error = None).
  { unfold locateRequired.
    destruct (keywordIs error "required" && _); [|exact Hgen].
    destruct seg as [|c seg]; [done|]. by rewrite Hnone. }
  assert (Hrest : locateAdditional document document seg error = Returned None).
  { unfold locateAdditional. by rewrite Hadd, Hreq. }
  unfold locate, findErrorPosition. rewrite Hpath.
  assert (Hnorm : stripTrailingSlash (stripLeadingSlash (SLASH :: seg)) = seg).
  { simpl. apply stripTrailingSlash_no_slash. by apply index_no_slash. }
  rewrite Hnorm.
  destruct (keywordIs error "schema"); [|done].
  destruct seg as [|c seg]; [done|]. by rewrite Hnone.
Qed.

Lemma locate_index_without_root_array_witness :
  locate (jsonText "{'items': [{'id': 'a'}]}")
         (errorAt "/0" "required" [(js "missingProperty", str "id")])
  = Returned None.
Proof.
  apply (locate_index_without_root_array _ _ (js "0")).
  - vm_compute. discriminate.
  - reflexivity.
  - reflexivity.
  - reflexivity.
Defined.

Lemma execFrom_None pat t k :
  (forall j, matchHere pat (drop j t) = None) -> execFrom pat t k = None.
Proof.
  revert k. induction t as [|x t IH]; intros k Hnone.
  - simpl. pose proof (Hnone 0) as H0. simpl in H0. by rewrite H0.
  - simpl. pose proof (Hnone 0) as H0. rewrite drop_0 in H0. rewrite H0.
    apply IH. intros j. apply (Hnone (S j)).
Qed.

(** The generic rule on a path of one property name: for an error that
    none of the three keyword rules takes, the locator returns the range of
    the name at its first quoted occurrence followed by a colon, wherever
    in the text that occurrence is, and [null] when there is none. *)
Theorem locate_generic_key document error key :
  keywordIs error "schema" = false ->
  keywordIs error "additionalProperties" = false ->
  keywordIs error "required" = false ->
  instancePath error = SLASH :: key ->
  key <> [] -> SLASH ∉ key -> isIndexSegment key = false ->
  ((exists i, quotedKeyAt key document i) ->
   exists i,
     quotedKeyAt key document i
     /\ (forall j, j < i -> ~ quotedKeyAt key document j)
     /\ locate document error = Returned (Some (keyRange document i (length key))))
  /\ ((forall i, ~ quotedKeyAt key document i) -> locate document error = Returned None).
Proof.
  intros Hschema Hadd Hreq Hpath Hne Hslash Hidx.
  assert (Hloc : locate document error
                 = Returned (match exec (keyPattern key) document with
                             | Some (index, _) => Some (keyRange document index (length key))
                             | None => None
                             end)).
  { unfold locate, findErrorPosition. rewrite Hpath, Hschema.
    assert (Hnorm : stripTrailingSlash (stripLeadingSlash (SLASH :: key)) = key).
    { simpl. by apply stripTrailingSlash_no_slash. }
    rewrite Hnorm. unfold locateAdditional. rewrite Hadd. simpl.
    unfold locateRequired. rewrite Hreq. simpl.
    assert (Hgen : locateGeneral document document key
                   = findPropertyAtPath document document key).
    { unfold locateGeneral. by destruct key. }
    rewrite Hgen. unfold findPropertyAtPath. rewrite (splitSlash_no_slash key Hslash), Hidx.
    unfold findPropertyInText. rewrite (splitSlash_no_slash key Hslash).
    rewrite filter_cons, decide_True, filter_nil.
    - simpl. by destruct (exec (keyPattern key) document) as [[index n]|].
    - rewrite Hidx. rewrite bool_decide_eq_false_2 by done. done. }
  split.
  - intros [i Hi].
    apply quotedKeyAt_matchHere, exec_leftmost in Hi as (i0 & n & Hexec & _ & Hm & Hnone).
    exists i0. split; [|split].
    + apply quotedKeyAt_matchHere. by rewrite Hm.
    + intros j Hj Hocc. apply quotedKeyAt_matchHere in Hocc.
      rewrite (Hnone j Hj) in Hocc. by destruct Hocc.
    + by rewrite Hloc, Hexec.
  - intros Hnone. rewrite Hloc. unfold exec. rewrite execFrom_None; [done|].
    intros j. destruct (matchHere (keyPattern key) (drop j document)) eqn:E; [|done].
    exfalso. apply (Hnone j), quotedKeyAt_matchHere. by rewrite E.
Qed.

Lemma locate_generic_key_witness :
  let document := jsonText "{'name': 'x', 'age': 'old'}" in
  let error := errorAt "/age" "type" [(js "type", str "number")] in
  ((exists i, quotedKeyAt (js "age") document i) ->
   exists i,
     quotedKeyAt (js "age") document i
     /\ (forall j, j < i -> ~ quotedKeyAt (js "age") document j)
     /\ locate document error = Returned (Some (keyRange document i (length (js "age")))))
  /\ ((forall i, ~ quotedKeyAt (js "age") document i) ->
      locate document error = Returned None).
Proof.
  intros document error.
  apply (locate_generic_key document error (js "age")).
  - reflexivity.
  - reflexivity.
  - reflexivity.
  - reflexivity.
  - discriminate.
  - intros Hin. vm_compute in Hin. by repeat (apply elem_of_cons in Hin as [Hin | Hin]; [discriminate Hin|]); apply elem_of_nil in Hin.
  - reflexivity.
Defined.

(** ** The extraction of object texts *)

Lemma scanObject_found text rest :
  forall i braceCount inString escapeNext j,
    rest = drop i text ->
    scanObject rest i braceCount inString escapeNext = Some j ->
    i <= j /\ text !! j = Some RBRACE.
Proof.
  induction rest as [|char rest IH]; intros i bc ins esc j Hdrop Hscan; [done|].
  apply drop_cons_inv in Hdrop as [Hchar Hrest].
  simpl in Hscan.
  repeat case_match; simplify_eq;
    try (apply IH in Hscan as [Hj Hbrace]; [|done]; split; [lia | done]).
  split; [lia|].
  match goal with H : (char =? RBRACE)%N = true |- _ => apply N.eqb_eq in H as -> end.
  done.
Qed.

Lemma firstBrace_found text rest :
  forall i j,
    rest = drop i text ->
    firstBrace rest i = Some j ->
    i <= j /\ text !! j = Some LBRACE
    /\ forall k, i <= k < j -> text !! k <> Some LBRACE.
Proof.
  induction rest as [|char rest IH]; intros i j Hdrop Hfirst; [done|].
  apply drop_cons_inv in Hdrop as [Hchar Hrest].
  simpl in Hfirst. destruct (char =? LBRACE)%N eqn:E.
  - apply N.eqb_eq in E as ->. simplify_eq. split; [lia|]. split; [done|]. lia.
  - apply N.eqb_neq in E.
    apply IH in Hfirst as (Hj & Hbrace & Hnone); [|done].
    split; [lia|]. split; [done|]. intros k Hk.
    destruct (decide (k = i)) as [-> | Hne]; [congruence|]. apply Hnone. lia.
Qed.

Lemma substring_ends text a b (x y : N) :
  a < b -> text !! a = Some x -> text !! b = Some y ->
  exists middle, substring a (b + 1) text = x :: middle ++ [y]
                 /\ length middle = b - a - 1.
Proof.
  intros Hab Ha Hb. unfold substring.
  assert (Hlen : b < length text) by (by apply lookup_lt_Some in Hb).
  rewrite (drop_S _ _ _ Ha).
  replace (b + 1 - a) with (S (b - a)) by lia. simpl.
  exists (take (b - a - 1) (drop (S a) text)). split.
  - f_equal.
    assert (Hy : drop (S a) text !! (b - a - 1) = Some y).
    { rewrite lookup_drop. by replace (S a + (b - a - 1)) with b by lia. }
    replace (b - a) with (S (b - a - 1)) at 1 by lia.
    by rewrite (take_S_r _ _ _ Hy).
  - rewrite length_take, length_drop. lia.
Qed.

(** What [findObjectTextAtPosition] extracts starts at the first opening
    brace at or after the given offset, is the slice of the text from that
    brace to a later closing brace, both included, and comes with the offset
    of its opening brace. *)
Theorem findObjectTextAtPosition_span text startPos objectText startOffset :
  findObjectTextAtPosition text startPos = Some (objectText, startOffset) ->
  startPos <= startOffset
  /\ text !! startOffset = Some LBRACE
  /\ (forall k, startPos <= k < startOffset -> text !! k <> Some LBRACE)
  /\ 2 <= length objectText
  /\ objectText = substring startOffset (startOffset + length objectText) text
  /\ exists middle, objectText = LBRACE :: middle ++ [RBRACE].
Proof.
  unfold findObjectTextAtPosition. intros H.
  destruct (firstBrace (drop startPos text) startPos) as [objectStart|] eqn:Ef; [|done].
  destruct (scanObject _ _ _ _ _) as [i|] eqn:Es; [|done].
  simplify_eq.
  apply (firstBrace_found text) in Ef as (Hle & Hopen & Hnone); [|done].
  apply (scanObject_found text) in Es as (Hi & Hclose); [|done].
  destruct (substring_ends text startOffset i LBRACE RBRACE) as (middle & Hsub & Hlen);
    [lia | done | done |].
  assert (Hl : length (substring startOffset (i + 1) text) = i + 1 - startOffset).
  { rewrite Hsub. cbn [length]. rewrite length_app. cbn [length]. lia. }
  split; [done|]. split; [done|]. split; [done|].
  split; [lia|]. split; [|by exists middle].
  rewrite Hl. unfold substring. f_equal. lia.
Qed.

Lemma findObjectTextAtPosition_span_witness :
  let text := jsonText "[ {'a': '}', 'b': {}} , {}]" in
  let objectText := jsonText "{'a': '}', 'b': {}}" in
  0 <= 2
  /\ text !! 2 = Some LBRACE
  /\ (forall k, 0 <= k < 2 -> text !! k <> Some LBRACE)
  /\ 2 <= length objectText
  /\ objectText = substring 2 (2 + length objectText) text
  /\ exists middle, objectText = LBRACE :: middle ++ [RBRACE].
Proof.
  intros text objectText.
  apply (findObjectTextAtPosition_span text 0 objectText 2).
  vm_compute. reflexivity.
Defined.

(** [findPropertyValueText] extracts a value only when the first unit after
    the white space is an opening brace: the result is then the slice of the
    text from that brace to a later closing brace; a value that starts with
    anything else, or an empty rest, gives [null]. *)
Theorem findPropertyValueText_span text :
  (forall valueText,
     findPropertyValueText text = Some valueText ->
     text !! skipSpaces text = Some LBRACE
     /\ valueText = substring (skipSpaces text) (skipSpaces text + length valueText) text
     /\ exists middle, valueText = LBRACE :: middle ++ [RBRACE])
  /\ (text !! skipSpaces text <> Some LBRACE -> findPropertyValueText text = None).
Proof.
  unfold findPropertyValueText. split.
  - intros valueText H.
    destruct (text !! skipSpaces text) as [c|] eqn:Ec; [|done].
    destruct (c =? LBRACE)%N eqn:E; [|done]. apply N.eqb_eq in E as ->.
    destruct (scanObject _ _ _ _ _) as [j|] eqn:Es; [|done]. simplify_eq.
    apply (scanObject_found text) in Es as (Hj & Hclose); [|done].
    assert (Hlt : skipSpaces text < j).
    { destruct (decide (j = skipSpaces text)) as [-> | Hne]; [|lia].
      rewrite Ec in Hclose. simplify_eq. }
    destruct (substring_ends text (skipSpaces text) j LBRACE RBRACE)
      as (middle & Hsub & Hlen); [lia | done | done |].
    assert (Hl : length (substring (skipSpaces text) (j + 1) text)
                 = j + 1 - skipSpaces text).
    { rewrite Hsub. cbn [length]. rewrite length_app. cbn [length]. lia. }
    split; [done|]. split; [|by exists middle].
    rewrite Hl. unfold substring. f_equal. lia.
  - intros Hno. destruct (text !! skipSpaces text) as [c|]; [|done].
    destruct (c =? LBRACE)%N eqn:E; [|done]. apply N.eqb_eq in E as ->. done.
Qed.

(** ** The schema rule *)

Lemma matchStar_lit p c r t :
  p c = false ->
  is_Some (matchStar p (matchHere (Lit c :: r)) t)
  <-> exists ws rest, t = ws ++ c :: rest /\ Forall (fun x => p x = true) ws
                      /\ is_Some (matchHere r rest).
Proof.
  intros Hpc. split.
  - induction t as [|x t IH]; simpl; intros H.
    + by destruct H.
    + destruct (p x) eqn:Hx.
      * destruct (matchStar p _ t) eqn:E.
        -- destruct IH as (ws & rest & -> & Hws & Hr); [done|].
           exists (x :: ws), rest. split; [done|]. split; [by constructor | done].
        -- destruct (x =? c)%N eqn:Exc; [|by destruct H].
           apply N.eqb_eq in Exc as ->. congruence.
      * destruct (x =? c)%N eqn:Exc; [|by destruct H].
        apply N.eqb_eq in Exc as ->. rewrite fmap_is_Some in H.
        exists [], t. split; [done|]. split; [constructor | done].
  - intros (ws & rest & -> & Hws & Hr).
    induction Hws as [|x ws Hx Hws IH].
    + simpl. rewrite Hpc, N.eqb_refl. by rewrite fmap_is_Some.
    + destruct IH as [n Hn]. cbn [app matchStar]. rewrite Hx, Hn. done.
Qed.

Lemma matchHere_Lit c r t :
  matchHere (Lit c :: r) t
  = match t with
    | x :: t' => if (x =? c)%N then S <$> matchHere r t' else None
    | [] => None
    end.
Proof. done. Qed.

Lemma matchHere_Star p r : matchHere (Star p :: r) = matchStar p (matchHere r).
Proof. done. Qed.

Lemma matchHere_Lit_inv c r t :
  is_Some (matchHere (Lit c :: r) t) -> exists t', t = c :: t' /\ is_Some (matchHere r t').
Proof.
  rewrite matchHere_Lit. destruct t as [|x t]; [by intros []|].
  destruct (x =? c)%N eqn:E; [|by intros []]. apply N.eqb_eq in E as ->.
  rewrite fmap_is_Some. by exists t.
Qed.

Lemma matchHere_Lit_intro c r t :
  is_Some (matchHere r t) -> is_Some (matchHere (Lit c :: r) (c :: t)).
Proof. intros H. by rewrite matchHere_Lit, N.eqb_refl, fmap_is_Some. Qed.

Lemma typeValuePattern_matches value t :
  is_Some (matchHere (typeValuePattern value) t)
  <-> exists ws1 ws2 rest,
        t = DQUOTE :: js "type" ++ DQUOTE :: ws1 ++ COLON :: ws2
                   ++ DQUOTE :: value ++ DQUOTE :: rest
        /\ Forall (fun c => is_space c = true) ws1
        /\ Forall (fun c => is_space c = true) ws2.
Proof.
  unfold typeValuePattern. split.
  - intros H.
    apply matchHere_Lit_inv in H as (t0 & -> & H).
    apply matchHere_literal_inv in H as (t1 & -> & H).
    cbn [app] in H.
    apply matchHere_Lit_inv in H as (t2 & -> & H).
    rewrite matchHere_Star in H.
    apply matchStar_lit in H as (ws1 & t3 & -> & Hws1 & H); [|done].
    rewrite matchHere_Star in H.
    apply matchStar_lit in H as (ws2 & t4 & -> & Hws2 & H); [|done].
    apply matchHere_literal_inv in H as (t5 & -> & H).
    apply matchHere_Lit_inv in H as (t6 & -> & H).
    by exists ws1, ws2, t6.
  - intros (ws1 & ws2 & rest & -> & Hws1 & Hws2).
    apply matchHere_Lit_intro.
    rewrite matchHere_literal_app, fmap_is_Some. cbn [app].
    apply matchHere_Lit_intro. rewrite matchHere_Star.
    apply matchStar_lit; [done|]. exists ws1, (ws2 ++ DQUOTE :: value ++ DQUOTE :: rest).
    split; [done|]. split; [done|]. rewrite matchHere_Star.
    apply matchStar_lit; [done|]. exists ws2, (value ++ DQUOTE :: rest).
    split; [done|]. split; [done|].
    rewrite matchHere_literal_app, fmap_is_Some.
    by apply matchHere_Lit_intro.
Qed.

Lemma typeFieldAt_matchHere value text i :
  typeFieldAt value text i <-> is_Some (matchHere (typeValuePattern value) (drop i text)).
Proof. unfold typeFieldAt. by rewrite typeValuePattern_matches. Qed.

(** The schema rule at the root: for an error of keyword [schema] with an
    empty path that carries the schema identifier, the locator returns the
    range of the word type of the first field of that name whose value is
    the identifier (the four units between its quotes), and [null] when the
    text has no such field. *)
Theorem locate_schema_type_field document error sid :
  keyword error = js "schema" ->
  instancePath error = [] \/ instancePath error = [SLASH] ->
  param (js "schemaId") (params error) = Some (JStr sid) ->
  ((exists i, typeFieldAt sid document i) ->
   exists i,
     typeFieldAt sid document i
     /\ (forall j, j < i -> ~ typeFieldAt sid document j)
     /\ locate document error
        = Returned (Some (mkRange (positionAt document (i + 1))
                                  (positionAt document (i + 5))))
     /\ substring (i + 1) (i + 5) document = js "type")
  /\ ((forall i, ~ typeFieldAt sid document i) -> locate document error = Returned None).
Proof.
  intros Hkw Hpath Hparam.
  assert (Hloc : locate document error
                 = Returned (match exec (typeValuePattern sid) document with
                             | Some (index, _) =>
                                 Some (mkRange (positionAt document (index + 1))
                                               (positionAt document (index + 5)))
                             | None => None
                             end)).
  { unfold locate, findErrorPosition.
    rewrite (keywordIs_true error "schema") by done.
    assert (Hnorm : stripTrailingSlash (stripLeadingSlash (instancePath error)) = []).
    { by destruct Hpath as [-> | ->]. }
    rewrite Hnorm. unfold hasParam, stringParam, findTypeFieldByValue. rewrite Hparam.
    destruct (exec (typeValuePattern sid) document) as [[index n]|]; [done|].
    unfold locateAdditional.
    rewrite (keywordIs_false error "schema" "additionalProperties") by done.
    simpl. unfold locateRequired.
    by rewrite (keywordIs_false error "schema" "required") by done. }
  split.
  - intros [i Hi].
    apply typeFieldAt_matchHere, exec_leftmost in Hi as (i0 & n & Hexec & _ & Hm & Hnone).
    assert (Hocc : typeFieldAt sid document i0).
    { apply typeFieldAt_matchHere. by rewrite Hm. }
    exists i0. split; [done|]. split; [|split].
    + intros j Hj Hj'. apply typeFieldAt_matchHere in Hj'.
      rewrite (Hnone j Hj) in Hj'. by destruct Hj'.
    + by rewrite Hloc, Hexec.
    + destruct Hocc as (ws1 & ws2 & rest & Hdrop & _).
      unfold substring. replace (i0 + 5 - (i0 + 1)) with 4 by lia.
      rewrite <- drop_drop, Hdrop. done.
  - intros Hnone. rewrite Hloc. unfold exec. rewrite execFrom_None; [done|].
    intros j. destruct (matchHere (typeValuePattern sid) (drop j document)) eqn:E; [|done].
    exfalso. apply (Hnone j), typeFieldAt_matchHere. by rewrite E.
Qed.

Lemma locate_schema_type_field_witness :
  let document := jsonText "{'id': 'o', 'type' : 'gts:foo/bar'}" in
  let error := errorAt "" "schema" [(js "schemaId", str "gts:foo/bar")] in
  ((exists i, typeFieldAt (js "gts:foo/bar") document i) ->
   exists i,
     typeFieldAt (js "gts:foo/bar") document i
     /\ (forall j, j < i -> ~ typeFieldAt (js "gts:foo/bar") document j)
     /\ locate document error
        = Returned (Some (mkRange (positionAt document (i + 1))
                                  (positionAt document (i + 5))))
     /\ substring (i + 1) (i + 5) document = js "type")
  /\ ((forall i, ~ typeFieldAt (js "gts:foo/bar") document i) ->
      locate document error = Returned None).
Proof.
  intros document error.
  apply (locate_schema_type_field document error (js "gts:foo/bar")).
  - reflexivity.
  - left. reflexivity.
  - reflexivity.
Defined.

(** * Further properties of the registry *)

Section RegistryInvariants.
Context `{C : Collaborators}.

(** In every registry reached from a fresh one by ingestions and
    invalidations, an index maps an identifier to an entity of that
    identifier which is listed in the per-file index under the path of its
    own file, and a per-file list holds only entities of that file. *)
Theorem reachable_ownership g ops : ownershipConsistent (run g ops).
Proof. apply run_consistent. Qed.

(** After an ingestion, and from then on, every entity of both indices has
    a validation result. *)
Theorem reachable_entities_validated g ops :
  map_Forall (fun _ e => is_Some (validation e)) (jsonObjs (run g ops))
  /\ map_Forall (fun _ e => is_Some (validation e)) (jsonSchemas (run g ops)).
Proof.
  apply (run_preserves (fun r =>
           map_Forall (fun _ e => is_Some (validation e)) (jsonObjs r)
           /\ map_Forall (fun _ e => is_Some (validation e)) (jsonSchemas r))).
  - split; apply map_Forall_empty.
  - intros r [files cfg | p] [Ho Hs]; simpl.
    + unfold ingestFiles, validateEntities. simpl.
      split; intros k e Hk; rewrite lookup_fmap in Hk;
        destruct (_ !! k); simpl in Hk; simplify_eq; by eexists.
    + destruct (invalidateFile_fields p r) as (_ & _ & Eo & _ & Es & _).
      rewrite Eo, Es. unfold purgeIndex.
      split; intros k e Hk.
      * destruct (jsonFileObjs r !! p);
          [apply deleteIds_lookup_Some in Hk as [Hk _]|]; by apply (Ho k).
      * destruct (jsonFileSchemas r !! p);
          [apply deleteIds_lookup_Some in Hk as [Hk _]|]; by apply (Hs k).
Qed.

Lemma purgePerFile_other (p q : jsstring) (perFile : gmap jsstring (list Entity)) :
  p <> q -> purgePerFile p perFile !! q = perFile !! q.
Proof.
  intros Hne. unfold purgePerFile. destruct (perFile !! p); [|done].
  by rewrite lookup_insert_ne.
Qed.

Lemma invalidateFile_listedAt (p q : jsstring) r :
  p <> q -> listedAt q r -> listedAt q (invalidateFile p r).
Proof.
  intros Hne (l & Hl & Hnil).
  destruct (invalidateFile_fields p r) as (_ & _ & _ & Efo & _ & Efs & _).
  exists l. split; [|done]. rewrite Efo, Efs, !purgePerFile_other by done. done.
Qed.

Lemma indexEntity_listedAt_keep (p : jsstring) e (q : jsstring) r :
  listedAt q r -> listedAt q (indexEntity p e r).
Proof.
  intros (l & Hl & Hnil). unfold indexEntity, listedAt.
  destruct (class e); simpl;
    (destruct (decide (p = q)) as [<- | Hne];
     [|exists l; rewrite lookup_insert_ne by done; by split]).
  - destruct Hl as [Hl | Hl]; [exists l; by split; [left|]|].
    rewrite Hl. exists (l ++ [e]). rewrite lookup_insert_eq. split; [by right|].
    by destruct l.
  - destruct Hl as [Hl | Hl]; [|exists l; by split; [right|]].
    rewrite Hl. exists (l ++ [e]). rewrite lookup_insert_eq. split; [by left|].
    by destruct l.
  - destruct Hl as [Hl | Hl]; [|exists l; by split; [right|]].
    rewrite Hl. exists (l ++ [e]). rewrite lookup_insert_eq. split; [by left|].
    by destruct l.
Qed.

Lemma indexEntity_listedAt p e r : listedAt p (indexEntity p e r).
Proof.
  unfold indexEntity, listedAt.
  destruct (class e); simpl; eexists; rewrite lookup_insert_eq;
    (split; [by (left + right) | by destruct (default [] _)]).
Qed.

Lemma processEntities_listedAt_keep p jsonFile cfg entities idx has r q :
  listedAt q r -> listedAt q (processEntities p jsonFile cfg entities idx has r).1.
Proof.
  revert idx has r.
  induction entities as [|c entities IH]; intros idx has r Hr; simpl; [done|].
  destruct (createEntity jsonFile _ c cfg) as [[e|]|msg]; simpl; [| by apply IH | done].
  destruct (isGtsEntity e); apply IH; [|done]. by apply indexEntity_listedAt_keep.
Qed.

Lemma processEntities_listedAt p jsonFile cfg entities idx has r r' :
  (has = true -> listedAt p r) ->
  processEntities p jsonFile cfg entities idx has r = (r', Returned true) ->
  listedAt p r'.
Proof.
  revert idx has r.
  induction entities as [|c entities IH]; intros idx has r Hhas H; simpl in H.
  - simplify_eq. by apply Hhas.
  - destruct (createEntity jsonFile _ c cfg) as [[e|]|msg]; [| by eapply IH | done].
    destruct (isGtsEntity e); [|by eapply IH].
    eapply IH; [|exact H]. intros _. apply indexEntity_listedAt.
Qed.

End RegistryInvariants.

Section FileRecords.
Context `{C : Collaborators}.

Lemma invalidateFile_records p r :
  fileRecordsConsistent r -> fileRecordsConsistent (invalidateFile p r).
Proof.
  intros [Hj Hi].
  destruct (invalidateFile_fields p r) as (Ef & Ei & _).
  unfold fileRecordsConsistent. rewrite Ef, Ei. split.
  - intros q f Hq. destruct (decide (p = q)) as [<- | Hne].
    + by rewrite lookup_delete_eq in Hq.
    + rewrite lookup_delete_ne in Hq by done. destruct (Hj q f Hq) as [Hp Hl].
      split; [done|]. by apply invalidateFile_listedAt.
  - intros q f Hq. destruct (decide (p = q)) as [<- | Hne].
    + by rewrite lookup_delete_eq in Hq.
    + rewrite lookup_delete_ne in Hq by done. by apply (Hi q f).
Qed.

Lemma processFileContent_records p nm c cfg r :
  fileRecordsConsistent r -> fileRecordsConsistent (processFileContent p nm c cfg r).1.
Proof.
  intros Hr. apply (invalidateFile_records p) in Hr. destruct Hr as [Hj Hi].
  assert (Hvalid : fileRecordsConsistent
            (let '(r', out) := processEntities p (newJsonFile p nm c) cfg
                                 (normalizeToArray c) 0 false (invalidateFile p r) in
             match out with
             | Thrown _ => r'
             | Returned has =>
                 if has && negb (bool_decide (is_Some (jsonFiles r' !! p)))
                 then setJsonFiles (<[p := newJsonFile p nm c]> (jsonFiles r')) r'
                 else r'
             end)).
  { pose proof (processEntities_files p (newJsonFile p nm c) cfg (normalizeToArray c)
                  0 false (invalidateFile p r)) as [Ef Ei].
    pose proof (fun q => processEntities_listedAt_keep p (newJsonFile p nm c) cfg
                  (normalizeToArray c) 0 false (invalidateFile p r) q) as Hkeep.
    pose proof (processEntities_listedAt p (newJsonFile p nm c) cfg
                  (normalizeToArray c) 0 false (invalidateFile p r)) as Hlisted.
    destruct (processEntities _ _ _ _ _ _ _) as [r' out]; simpl in *.
    assert (Hr' : fileRecordsConsistent r').
    { split.
      - rewrite Ef. intros q f Hq. destruct (Hj q f Hq). split; [done|]. by apply Hkeep.
      - by rewrite Ei. }
    destruct out as [has|msg]; [|done].
    destruct has; simpl; [|done].
    destruct (negb _); [|done].
    destruct Hr' as [Hj' Hi']. split; [|done]. simpl.
    intros q f Hq. destruct (decide (p = q)) as [<- | Hne].
    - rewrite lookup_insert_eq in Hq. simplify_eq. split; [done|].
      destruct (Hlisted r') as (l & Hl & Hnil); [done | done |]. by exists l.
    - rewrite lookup_insert_ne in Hq by done. destruct (Hj' q f Hq) as [? (l & Hl & Hnil)].
      split; [done|]. by exists l. }
  unfold processFileContent.
  destruct (file_validation (newJsonFile p nm c)) as [[[] errs]|] eqn:Ev.
  - destruct (processEntities _ _ _ _ _ _ _) as [r' [has|msg]]; simpl in *;
      [by destruct (_ && _) | done].
  - simpl. split.
    + intros q f Hq. destruct (Hj q f Hq) as [? (l & Hl & Hnil)].
      split; [done|]. by exists l.
    + simpl. intros q f Hq. destruct (decide (p = q)) as [<- | Hne].
      * rewrite lookup_insert_eq in Hq. simplify_eq. split; [done|]. by exists errs.
      * rewrite lookup_insert_ne in Hq by done. by apply (Hi q f).
  - destruct (processEntities _ _ _ _ _ _ _) as [r' [has|msg]]; simpl in *;
      [by destruct (_ && _) | done].
Qed.

(** In every registry reached from a fresh one, the two file maps are keyed
    by the path of the file they hold; every file of [jsonFiles] has at
    least one entity listed under its path in a per-file index, and every
    file of [invalidFiles] carries a validation that failed. *)
Theorem reachable_file_records g ops : fileRecordsConsistent (run g ops).
Proof.
  apply run_preserves.
  - split; apply map_Forall_empty.
  - intros r [files cfg | p] Hr; simpl.
    + unfold ingestFiles.
      assert (Hp : fileRecordsConsistent (processFiles files (getGtsConfig cfg) r)).
      { apply processFiles_preserves; [|done].
        intros. by apply processFileContent_records. }
      destruct Hp as [Hj Hi]. split; [|done].
      intros q f Hq. destruct (Hj q f Hq) as [? (l & Hl & Hnil)].
      split; [done|]. by exists l.
    + by apply invalidateFile_records.
Qed.

Lemma processEntities_origin p jsonFile cfg entities idx has r :
  (forall k e, jsonObjs (processEntities p jsonFile cfg entities idx has r).1 !! k = Some e ->
               jsonObjs r !! k = Some e \/ file e = jsonFile)
  /\ (forall k e, jsonSchemas (processEntities p jsonFile cfg entities idx has r).1 !! k = Some e ->
               jsonSchemas r !! k = Some e \/ file e = jsonFile).
Proof.
  revert idx has r.
  induction entities as [|c entities IH]; intros idx has r; simpl; [by split; left|].
  destruct (createEntity jsonFile _ c cfg) as [[e|]|msg] eqn:E; simpl;
    [| by apply IH | by split; left].
  apply createEntity_fields in E as (Hfile & _).
  destruct (isGtsEntity e); [|by apply IH].
  destruct (IH (S idx) true (indexEntity p e r)) as [Ho Hs].
  split; intros k e0 Hk.
  - apply Ho in Hk as [Hk | Hk]; [|by right].
    unfold indexEntity in Hk. destruct (class e); simpl in Hk;
      try (by left);
      (destruct (decide (id e = k)) as [<- | Hne];
       [rewrite lookup_insert_eq in Hk; simplify_eq; by right
       |rewrite lookup_insert_ne in Hk by done; by left]).
  - apply Hs in Hk as [Hk | Hk]; [|by right].
    unfold indexEntity in Hk. destruct (class e); simpl in Hk;
      try (by left);
      (destruct (decide (id e = k)) as [<- | Hne];
       [rewrite lookup_insert_eq in Hk; simplify_eq; by right
       |rewrite lookup_insert_ne in Hk by done; by left]).
Qed.

Lemma invalidateFile_bare p r :
  invalidFilesBare r -> invalidFilesBare (invalidateFile p r).
Proof.
  intros Hr q Hq.
  destruct (invalidateFile_fields p r) as (_ & Ei & Eo & _ & Es & _).
  rewrite Ei in Hq. rewrite Eo, Es.
  assert (Hq' : is_Some (invalidFiles r !! q)).
  { destruct (decide (p = q)) as [<- | Hne].
    - rewrite lookup_delete_eq in Hq. by destruct Hq.
    - by rewrite lookup_delete_ne in Hq. }
  destruct (Hr q Hq') as [Ho Hs]. unfold purgeIndex.
  split; intros k e Hk.
  - destruct (jsonFileObjs r !! p);
      [apply deleteIds_lookup_Some in Hk as [Hk _]|]; by apply (Ho k).
  - destruct (jsonFileSchemas r !! p);
      [apply deleteIds_lookup_Some in Hk as [Hk _]|]; by apply (Hs k).
Qed.

Lemma processFileContent_bare p nm c cfg r :
  ownershipConsistent r -> invalidFilesBare r ->
  invalidFilesBare (processFileContent p nm c cfg r).1.
Proof.
  intros Hown Hr.
  pose proof (invalidateFile_bare p r Hr) as Hr0.
  assert (Hnone : invalidFiles (invalidateFile p r) !! p = None).
  { destruct (invalidateFile_fields p r) as (_ & Ei & _). rewrite Ei.
    apply lookup_delete_eq. }
  assert (Hleaves : map_Forall (fun _ e => path (file e) <> p)
                      (jsonObjs (invalidateFile p r))
                    /\ map_Forall (fun _ e => path (file e) <> p)
                         (jsonSchemas (invalidateFile p r))).
  { destruct Hown as [Ho Hs].
    destruct (invalidateFile_fields p r) as (_ & _ & Eo & _ & Es & _).
    rewrite Eo, Es.
    destruct (purge_leaves p _ _ Ho) as [H1 _].
    destruct (purge_leaves p _ _ Hs) as [H2 _]. split; [exact H1 | exact H2]. }
  assert (Hvalid : forall r' out,
            processEntities p (newJsonFile p nm c) cfg (normalizeToArray c) 0 false
              (invalidateFile p r) = (r', out) ->
            invalidFilesBare r'
            /\ forall m, invalidFilesBare (setJsonFiles m r')).
  { intros r' out Hpe.
    pose proof (processEntities_files p (newJsonFile p nm c) cfg (normalizeToArray c)
                  0 false (invalidateFile p r)) as [_ Ei].
    pose proof (processEntities_origin p (newJsonFile p nm c) cfg (normalizeToArray c)
                  0 false (invalidateFile p r)) as [Ho Hs].
    rewrite Hpe in Ei, Ho, Hs. simpl in *.
    assert (Hbare : invalidFilesBare r').
    { intros q Hq. rewrite Ei in Hq.
      assert (Hne : q <> p) by (intros ->; rewrite Hnone in Hq; by destruct Hq).
      destruct (Hr0 q Hq) as [Ho0 Hs0].
      split; intros k e Hk.
      - apply Ho in Hk as [Hk | ->]; [by apply (Ho0 k) | done].
      - apply Hs in Hk as [Hk | ->]; [by apply (Hs0 k) | done]. }
    split; [done|]. intros m q Hq. by apply Hbare. }
  unfold processFileContent.
  destruct (file_validation (newJsonFile p nm c)) as [[[] errs]|] eqn:Ev.
  - destruct (processEntities _ _ _ _ _ _ _) as [r' [has|msg]] eqn:Hpe; simpl;
      destruct (Hvalid _ _ eq_refl) as [Hb Hset]; [by destruct (_ && _) | done].
  - simpl. intros q Hq. simpl in *.
    destruct (decide (p = q)) as [<- | Hne]; [exact Hleaves|].
    rewrite lookup_insert_ne in Hq by done. by apply Hr0.
  - destruct (processEntities _ _ _ _ _ _ _) as [r' [has|msg]] eqn:Hpe; simpl;
      destruct (Hvalid _ _ eq_refl) as [Hb Hset]; [by destruct (_ && _) | done].
Qed.

Lemma run_invalid_files_bare g ops : invalidFilesBare (run g ops).
Proof.
  apply (run_preserves (fun r => ownershipConsistent r /\ invalidFilesBare r)).
  - split.
    + apply (run_consistent g []).
    + intros q Hq. simpl in Hq. rewrite lookup_empty in Hq. by destruct Hq.
  - intros r [files cfg | p] [Hown Hr]; simpl.
    + split; [by apply ingestFiles_consistent|].
      unfold ingestFiles.
      assert (Hp : ownershipConsistent (processFiles files (getGtsConfig cfg) r)
                   /\ invalidFilesBare (processFiles files (getGtsConfig cfg) r)).
      { apply (processFiles_preserves
                 (fun r => ownershipConsistent r /\ invalidFilesBare r)); [|done].
        intros q nm c r0 [Ho Hb]. split.
        - by apply processFileContent_consistent.
        - by apply processFileContent_bare. }
      destruct Hp as [_ Hb]. intros q Hq. simpl in Hq.
      destruct (Hb q Hq) as [Ho Hs]. unfold validateEntities. simpl.
      split; intros k e Hk; rewrite lookup_fmap in Hk.
      * destruct (jsonObjs _ !! k) as [e0|] eqn:E; simpl in Hk; simplify_eq.
        exact (Ho k e0 E).
      * destruct (jsonSchemas _ !! k) as [e0|] eqn:E; simpl in Hk; simplify_eq.
        exact (Hs k e0 E).
    + split; [by apply invalidateFile_consistent | by apply invalidateFile_bare].
Qed.

(** In every registry reached from a fresh one, no index holds an entity
    owned by a file that is recorded as invalid: such a file contributes no
    entity, and those it had contributed before are gone. *)
Theorem reachable_invalid_files_bare g ops : invalidFilesBare (run g ops).
Proof. apply run_invalid_files_bare. Qed.
End FileRecords.

(** ** Files that an ingestion skips or does not concern *)

Lemma startsWith_inv s t : startsWith s t = true -> exists r, t = s ++ r.
Proof.
  revert t. induction s as [|c s IH]; intros t H; [by exists t|].
  destruct t as [|x t]; [done|]. simpl in H.
  apply andb_prop in H as [Hc Hs]. apply N.eqb_eq in Hc as ->.
  destruct (IH t Hs) as [r ->]. by exists r.
Qed.

Lemma toolingFrom_eq b p :
  toolingFrom b p
  = (b && startsWith (js ".gts-viewer") p
     && match drop 11 p with c :: _ => isSeparator c | [] => false end)
    || match p with
       | c :: p' => toolingFrom (isSeparator c) p'
       | [] => false
       end.
Proof. by destruct p. Qed.

Lemma toolingFrom_spec b p :
  toolingFrom b p = true
  <-> exists pre sep rest,
        p = pre ++ js ".gts-viewer" ++ sep :: rest
        /\ isSeparator sep = true
        /\ ((pre = [] /\ b = true)
            \/ exists pre' s, pre = pre' ++ [s] /\ isSeparator s = true).
Proof.
  split.
  - revert b. induction p as [|c p IH]; intros b H; rewrite toolingFrom_eq in H.
    + apply orb_prop in H as [H | H]; [|done].
      apply andb_prop in H as [H _]. apply andb_prop in H as [_ H]. done.
    + apply orb_prop in H as [H | H].
      * apply andb_prop in H as [H Hsep]. apply andb_prop in H as [Hb Hstart].
        apply startsWith_inv in Hstart as [t Ht]. rewrite Ht in Hsep.
        change (drop 11 (js ".gts-viewer" ++ t)) with t in Hsep.
        destruct t as [|sep rest]; [done|].
        exists [], sep, rest. split; [done|]. split; [done|]. by left.
      * apply IH in H as (pre & sep & rest & -> & Hsep & Hpre).
        exists (c :: pre), sep, rest. split; [done|]. split; [done|]. right.
        destruct Hpre as [[-> Hc] | (pre' & s & -> & Hs)].
        -- by exists [], c.
        -- by exists (c :: pre'), s.
  - intros (pre & sep & rest & -> & Hsep & Hpre). revert b Hpre.
    induction pre as [|c pre IH]; intros b Hpre; rewrite toolingFrom_eq.
    + destruct Hpre as [[_ ->] | (pre' & s & Hnil & _)]; [|by destruct pre'].
      apply orb_true_intro. left.
      assert (Hafter : match drop 11 ([] ++ js ".gts-viewer" ++ sep :: rest) with
                       | c :: _ => isSeparator c
                       | [] => false
                       end = true) by exact Hsep.
      rewrite Hafter, andb_true_r.
      change ([] ++ js ".gts-viewer" ++ sep :: rest)
        with (js ".gts-viewer" ++ sep :: rest).
      by rewrite startsWith_app.
    + apply orb_true_intro. right. simpl. apply IH.
      destruct Hpre as [[Hnil _] | (pre' & s & Heq & Hs)]; [done|].
      destruct pre' as [|c' pre'].
      * simpl in Heq. simplify_eq. by left.
      * simpl in Heq. simplify_eq. right. by exists pre', s.
Qed.

(** The files that [ingestFiles] skips are those whose path has a component
    [.gts-viewer], at the start or after a separator and followed by one. *)
Theorem tooling_directory_paths p :
  inToolingDirectory p = true <-> underToolingDirectory p.
Proof.
  unfold inToolingDirectory, underToolingDirectory. rewrite toolingFrom_spec.
  split; intros (pre & sep & rest & Hp & Hsep & Hpre); exists pre, sep, rest;
    (split; [done|]); (split; [done|]).
  - destruct Hpre as [[-> _] | Hpre]; [by left | by right].
  - destruct Hpre as [-> | Hpre]; [by left | by right].
Qed.

Section Frame.
Context `{C : Collaborators}.

Lemma processFileContent_files_other (q p : jsstring) nm c cfg r :
  q <> p ->
  jsonFiles (processFileContent q nm c cfg r).1 !! p = jsonFiles r !! p
  /\ invalidFiles (processFileContent q nm c cfg r).1 !! p = invalidFiles r !! p.
Proof.
  intros Hne.
  destruct (invalidateFile_fields q r) as (Ef & Ei & _).
  assert (H0 : jsonFiles (invalidateFile q r) !! p = jsonFiles r !! p
               /\ invalidFiles (invalidateFile q r) !! p = invalidFiles r !! p).
  { rewrite Ef, Ei. by rewrite !lookup_delete_ne. }
  destruct H0 as [Hf0 Hi0].
  pose proof (processEntities_files q (newJsonFile q nm c) cfg (normalizeToArray c)
                0 false (invalidateFile q r)) as [Hf Hi].
  unfold processFileContent.
  destruct (file_validation (newJsonFile q nm c)) as [[[] errs]|];
    try (destruct (processEntities _ _ _ _ _ _ _) as [r' [has|msg]]; simpl in *;
         [destruct (_ && _); simpl; rewrite ?lookup_insert_ne by done
         |]; rewrite ?Hf, ?Hi; done).
  simpl. rewrite lookup_insert_ne by done. done.
Qed.

(** An ingestion changes the file records of no path but those of its
    batch: for a path that no file of the batch has, or that is skipped as
    part of the tooling directory, [jsonFiles] and [invalidFiles] are as
    before. *)
Theorem ingestFiles_other_paths g files cfg r (p : jsstring) :
  (forall f, f ∈ files -> in_path f = p -> inToolingDirectory p = true) ->
  jsonFiles (ingestFiles g files cfg r) !! p = jsonFiles r !! p
  /\ invalidFiles (ingestFiles g files cfg r) !! p = invalidFiles r !! p.
Proof.
  intros Hfiles. unfold ingestFiles.
  destruct (validateEntities_files g (processFiles files (getGtsConfig cfg) r)) as [-> ->].
  unfold processFiles. revert r.
  induction files as [|f files IH]; intros r; [done|]. simpl.
  destruct (IH (fun f' Hin => Hfiles f' (list_elem_of_further _ _ _ Hin))
              (if inToolingDirectory (in_path f) then r
               else (processFileContent (in_path f) (in_name f) (in_content f)
                       (getGtsConfig cfg) r).1)) as [-> ->].
  destruct (inToolingDirectory (in_path f)) eqn:Et; [done|].
  apply processFileContent_files_other. intros Heq.
  rewrite Heq, (Hfiles f) in Et; [done | by left | done].
Qed.
End Frame.

Lemma ingestFiles_other_paths_witness :
  let r := run (C := demo) plainHost [Ingest (C := demo) [fileA] demoConfig] in
  let skipped := mkInput (js "x/.gts-viewer/a.json") (js "a.json") (str "oops") in
  let r' := ingestFiles (C := demo) plainHost [fileB; skipped] demoConfig r in
  (jsonFiles r' !! js "a.json" = jsonFiles r !! js "a.json"
   /\ invalidFiles r' !! js "a.json" = invalidFiles r !! js "a.json")
  /\ (jsonFiles r' !! js "x/.gts-viewer/a.json" = None
      /\ invalidFiles r' !! js "x/.gts-viewer/a.json" = None).
Proof.
  intros r skipped r'. split.
  - apply (ingestFiles_other_paths (C := demo) plainHost [fileB; skipped] demoConfig r
             (js "a.json")).
    intros f Hin Hp. exfalso.
    apply elem_of_cons in Hin as [-> | Hin]; [discriminate Hp|].
    apply elem_of_cons in Hin as [-> | Hin]; [discriminate Hp|].
    by apply elem_of_nil in Hin.
  - apply (ingestFiles_other_paths (C := demo) plainHost [fileB; skipped] demoConfig r
             (js "x/.gts-viewer/a.json")).
    intros f Hin Hp. reflexivity.
Defined.

(** ** The fetch cache, for every outcome *)



Section SingleFlight.
Context `{C : Collaborators}.

End SingleFlight.


(** ** The verdicts of [validateEntity] *)

Section Verdicts.
Context `{C : Collaborators}.

(** In a restricted host the result of an entity, whatever its class, its
    content and its schema, is that of the reference check: the entity is
    valid exactly when every reference is in one of the two indices, and
    its errors are one per missing reference, in the order of the
    references. *)
Theorem restricted_host_verdict g r e :
  restrictedHost g = true ->
  validation (validateEntity g r e)
  = Some (mkResult (forallb (refExists r) (gtsRefs e))
                   (map referenceError
                        (List.filter (fun ref => negb (refExists r ref)) (gtsRefs e)))).
Proof. intros Hg. simpl. by rewrite validateResult_restricted. Qed.

(** In a host without restriction the verdict on a schema is that of the
    compilation alone: a schema that compiles is valid even when references
    of it are missing, and the errors of those references stay in its
    result; a schema that does not compile is invalid, with the errors of
    the reference check followed by one error of keyword [schema] that
    quotes the failure. *)
Theorem schema_verdict_is_compilation g r e :
  restrictedHost g = false ->
  class e = IsJsonSchema ->
  let referenceErrors :=
    map referenceError (List.filter (fun ref => negb (refExists r ref)) (gtsRefs e)) in
  validateResult g r e
  = match compileAsync (schemaContents r) (content e) with
    | Returned _ => mkResult true referenceErrors
    | Thrown msg =>
        mkResult false
          (referenceErrors
           ++ [mkError [] (js "#") (js "schema") (js "Invalid JSON Schema: " ++ msg)
                       [(js "error", JStr msg)] None])
    end.
Proof.
  intros Hg Hclass. unfold validateResult. rewrite Hg, Hclass.
  rewrite checkReferences_closed. by destruct (compileAsync _ _).
Qed.

(** In a host without restriction, the verdict on an object whose schema is
    in the index is that of the engine: valid when the engine accepts the
    content, even when references are missing (their errors stay); invalid
    with the formatted errors of the engine alone when it rejects the
    content with errors; invalid with the errors of the reference check
    when it rejects without errors; and invalid with one more error of
    keyword [validation] when compiling or running the schema throws. *)
Theorem object_verdict_is_engine g r e sid schema :
  restrictedHost g = false ->
  class e = IsJsonObj ->
  schemaId e = Some sid -> sid <> [] ->
  jsonSchemas r !! sid = Some schema ->
  let referenceErrors :=
    map referenceError (List.filter (fun ref => negb (refExists r ref)) (gtsRefs e)) in
  validateResult g r e
  = match compileAsync (schemaContents r) (content schema) with
    | Thrown msg => mkResult false (referenceErrors ++ [validationFailedError msg])
    | Returned validate =>
        match validate (content e) with
        | Thrown msg => mkResult false (referenceErrors ++ [validationFailedError msg])
        | Returned (true, _) => mkResult true referenceErrors
        | Returned (false, None) => mkResult false referenceErrors
        | Returned (false, Some errs) => mkResult false (formatValidationErrors errs)
        end
    end.
Proof.
  intros Hg Hclass Hsid Hne Hschema. unfold validateResult. rewrite Hg, Hclass.
  unfold noSchemaId, resolveSchema. rewrite Hsid.
  destruct sid as [|c sid]; [done|]. simpl default. rewrite Hschema.
  rewrite checkReferences_closed. cbn [valid errors app].
  destruct (compileAsync _ _) as [validate|msg]; [|done].
  destruct (validate (content e)) as [[[] [errs|]]|msg]; done.
Qed.

(** The formatted errors correspond one to one, in order, to the errors of
    the engine; each keeps the keyword, parameters and data of its source
    and its paths when they are not empty; an empty instance path becomes
    the slash and an empty schema path the hash, so that neither path of a
    formatted error is empty. *)
Theorem formatValidationErrors_shape ajvErrors :
  Forall2
    (fun raw err =>
       keyword err = eo_keyword raw
       /\ params err = eo_params raw
       /\ data err = eo_data raw
       /\ instancePath err = (if bool_decide (eo_instancePath raw = []) then [SLASH]
                              else eo_instancePath raw)
       /\ schemaPath err = (if bool_decide (eo_schemaPath raw = []) then js "#"
                            else eo_schemaPath raw)
       /\ instancePath err <> [] /\ schemaPath err <> [])
    ajvErrors (formatValidationErrors ajvErrors).
Proof.
  unfold formatValidationErrors.
  induction ajvErrors as [|raw raws IH]; [constructor|].
  cbn [map]. constructor; [|exact IH]. cbn [keyword params data instancePath schemaPath].
  repeat split; unfold orElse.
  - by destruct (eo_instancePath raw).
  - by destruct (eo_schemaPath raw).
  - by destruct (eo_instancePath raw).
  - by destruct (eo_schemaPath raw).
Qed.
End Verdicts.

Lemma restricted_host_verdict_witness :
  let r := ingestFiles (C := demo) webviewHost [fileSchema] demoConfig newRegistry in
  let e := mkEntity (js "o1") IsJsonObj
                    (newJsonFile (C := demo) (js "o.json") (js "o.json") JNull) None
                    (obj [("id", str "o1")]) (Some (js "sch"))
                    [mkRef (js "sch") (js "type"); mkRef (js "gone") (js "a[0].b")]
                    true None in
  validation (validateEntity (C := demo) webviewHost r e)
  = Some (mkResult false
       [mkError (js "/a/0/b") (js "#") (js "") (js "GTS reference not found: gone")
                [(js "gtsId", str "gone"); (js "sourcePath", str "a[0].b")] None]).
Proof.
  intros r e.
  exact (eq_trans (restricted_host_verdict (C := demo) webviewHost r e eq_refl) eq_refl).
Defined.

Lemma schema_verdict_is_compilation_witness :
  let r := ingestFiles (C := demo) plainHost [fileSchema] demoConfig newRegistry in
  let e := mkEntity (js "s2") IsJsonSchema
                    (newJsonFile (C := demo) (js "s2.json") (js "s2.json") JNull) None
                    (obj [("id", str "s2")]) None
                    [mkRef (js "gone") (js "root")] true None in
  validateResult (C := demo) plainHost r e
  = mkResult true
      [mkError (js "/") (js "#") (js "") (js "GTS reference not found: gone")
               [(js "gtsId", str "gone"); (js "sourcePath", str "root")] None].
Proof.
  intros r e.
  exact (eq_trans (schema_verdict_is_compilation (C := demo) plainHost r e eq_refl eq_refl) eq_refl).
Defined.

Lemma object_verdict_is_engine_witness :
  let r := ingestFiles (C := demo) plainHost [fileSchema] demoConfig newRegistry in
  let schema := mkEntity (js "sch") IsJsonSchema
                  (newJsonFile (C := demo) (js "s.json") (js "s.json") (in_content fileSchema))
                  None (in_content fileSchema) None [] true (Some (mkResult true [])) in
  let e := mkEntity (js "o1") IsJsonObj
                    (newJsonFile (C := demo) (js "o.json") (js "o.json") JNull) None
                    (obj [("id", str "o1"); ("name", str "n")]) (Some (js "sch"))
                    [mkRef (js "gone") (js "ref")] true None in
  validateResult (C := demo) plainHost r e
  = mkResult true [referenceError (mkRef (js "gone") (js "ref"))].
Proof.
  intros r schema e.
  refine (eq_trans (object_verdict_is_engine (C := demo) plainHost r e (js "sch") schema
                      eq_refl eq_refl eq_refl _ _) eq_refl).
  - discriminate.
  - vm_compute. reflexivity.
Defined.

(** ** The errors of an open document that is not valid *)

Section OpenDocument.
Context `{C : Collaborators}.

Lemma ownedBy_none (index : gmap jsstring Entity) filePath :
  map_Forall (fun _ e => path (file e) <> filePath) index -> ownedBy filePath index = [].
Proof.
  intros Hall. unfold ownedBy.
  apply map_Forall_to_list in Hall.
  induction (map_to_list index) as [|[k e] l IH]; [done|].
  apply Forall_cons in Hall as [He Hl]. cbn [fmap list_fmap snd].
  rewrite filter_cons, decide_False by exact He. by apply IH.
Qed.

Lemma processFiles_app files1 files2 cfg r :
  processFiles (files1 ++ files2) cfg r = processFiles files2 cfg (processFiles files1 cfg r).
Proof. unfold processFiles. apply fold_left_app. Qed.

(** When the content of the open document fails the check of its file (a
    text that did not parse, for one), the errors that [validateOpenDocument]
    turns into diagnostics are exactly the errors of that check, whatever
    the other files of the last scan hold. *)
Theorem openDocument_invalid_file g files filePath fileName c errs :
  inToolingDirectory filePath = false ->
  checkFile filePath fileName c = Some (mkResult false errs) ->
  openDocumentErrors g files filePath fileName c = errs.
Proof.
  intros Htool Hcheck. unfold openDocumentErrors.
  set (merged := filter (fun f => in_path f <> filePath) files
                 ++ [mkInput filePath fileName c]).
  assert (Hinvalid : invalidFiles (ingestFiles g merged DEFAULT_GTS_CONFIG newRegistry)
                     !! filePath = Some (newJsonFile filePath fileName c)).
  { unfold ingestFiles.
    destruct (validateEntities_files g
                (processFiles merged (getGtsConfig DEFAULT_GTS_CONFIG) newRegistry))
      as [_ ->].
    unfold merged. rewrite processFiles_app. unfold processFiles at 1. simpl.
    rewrite Htool. unfold processFileContent. simpl. rewrite Hcheck. simpl.
    apply lookup_insert_eq. }
  assert (Hreach : ingestFiles g merged DEFAULT_GTS_CONFIG newRegistry
                   = run g [Ingest merged DEFAULT_GTS_CONFIG]) by done.
  assert (Herrs : invalidFileErrors (ingestFiles g merged DEFAULT_GTS_CONFIG newRegistry)
                    filePath = errs).
  { unfold invalidFileErrors. rewrite Hinvalid. cbn [file_validation newJsonFile].
    by rewrite Hcheck. }
  unfold surfacedErrors. rewrite Herrs.
  destruct errs as [|err errs]; [|done].
  destruct (run_invalid_files_bare g [Ingest merged DEFAULT_GTS_CONFIG] filePath)
    as [Ho Hs].
  { rewrite <- Hreach, Hinvalid. by eexists. }
  rewrite Hreach, (ownedBy_none _ _ Ho), (ownedBy_none _ _ Hs). done.
Qed.
End OpenDocument.

Lemma openDocument_invalid_file_witness :
  openDocumentErrors (C := demo) plainHost [fileSchema; fileObject]
                     (js "o.json") (js "o.json") (str "{ not json")
  = [mkError [] (js "#") (js "syntax") (js "Invalid JSON") [] None].
Proof.
  apply (openDocument_invalid_file (C := demo) plainHost [fileSchema; fileObject]
           (js "o.json") (js "o.json") (str "{ not json")).
  - reflexivity.
  - reflexivity.
Defined.

(** ** Navigation through a nested object *)

Lemma splitSlash_app a t : SLASH ∉ a -> splitSlash (a ++ SLASH :: t) = a :: splitSlash t.
Proof.
  induction a as [|c a IH]; intros Hnot; [done|].
  apply not_elem_of_cons in Hnot as [Hc Ha].
  change (splitSlash ((c :: a) ++ SLASH :: t))
    with (if (c =? SLASH)%N then [] :: splitSlash (a ++ SLASH :: t)
          else match splitSlash (a ++ SLASH :: t) with
               | seg :: segs => (c :: seg) :: segs
               | [] => [[c]]
               end).
  rewrite (IH Ha). destruct (c =? SLASH)%N eqn:E; [|done].
  apply N.eqb_eq in E. congruence.
Qed.

(** For a path of two property names, the range of the second name is
    computed from the offset that follows the colon of the first: the
    white space between that colon and the opening brace of the value is
    not counted, so the range returned lies that many units to the left of
    the place where the name stands in the text. *)
Theorem findPropertyInText_nested text document baseOffset a b i n valueText i2 n2 :
  a <> [] -> SLASH ∉ a -> isIndexSegment a = false ->
  b <> [] -> SLASH ∉ b -> isIndexSegment b = false ->
  exec (keyPattern a) text = Some (i, n) ->
  findPropertyValueText (drop (i + n) text) = Some valueText ->
  exec (keyPattern b) valueText = Some (i2, n2) ->
  findPropertyInText text document baseOffset (a ++ SLASH :: b)
  = Some (mkRange (positionAt document (baseOffset + i + n + i2 + 1))
                  (positionAt document (baseOffset + i + n + i2 + 1 + length b)))
  /\ forall m, m < length valueText ->
       valueText !! m = text !! (i + n + skipSpaces (drop (i + n) text) + m).
Proof.
  intros Ha Hsa Hia Hb Hsb Hib Hexec Hvalue Hexec2. split.
  - unfold findPropertyInText.
    rewrite splitSlash_app, (splitSlash_no_slash b) by done.
    rewrite !filter_cons, filter_nil.
    rewrite !decide_True.
    + cbn [findSegments]. rewrite Hexec, Hvalue. cbn [findSegments]. by rewrite Hexec2.
    + rewrite Hib. by rewrite bool_decide_eq_false_2.
    + rewrite Hia. by rewrite bool_decide_eq_false_2.
  - intros m Hm. unfold findPropertyValueText in Hvalue.
    destruct (drop (i + n) text !! skipSpaces (drop (i + n) text)) as [c|]; [|done].
    destruct (c =? LBRACE)%N; [|done].
    destruct (scanObject _ _ _ _ _) as [j|]; [|done]. simplify_eq.
    unfold substring in *. rewrite length_take in Hm.
    rewrite lookup_take_lt by lia. rewrite !lookup_drop. f_equal. lia.
Qed.

Lemma findPropertyInText_nested_witness :
  let text := jsonText "{'a':    {'b': 1}}" in
  findPropertyInText text text 0 (js "a/b")
  = Some (mkRange (mkPosition 0 7) (mkPosition 0 8))
  /\ text !! 11 = Some (chr "b")
  /\ substring 7 8 text = js " ".
Proof.
  intros text.
  destruct (findPropertyInText_nested text text 0 (js "a") (js "b") 1 4
              (jsonText "{'b': 1}") 1 4) as [H _].
  - discriminate.
  - intros Hin. apply list_elem_of_singleton in Hin. discriminate Hin.
  - reflexivity.
  - discriminate.
  - intros Hin. apply list_elem_of_singleton in Hin. discriminate Hin.
  - reflexivity.
  - reflexivity.
  - reflexivity.
  - reflexivity.
  - split; [exact H|]. split; reflexivity.
Defined.

(** ** Errors without an anchor *)

(** An error at the root that no keyword rule takes (an unknown keyword, or
    a known one without its parameter) has no anchor: the locator returns
    [null].  When the message of the error is not empty, the diagnostic that
    [validationErrorsToDiagnostics] makes of it is on the first character of
    the document, carries the message with the severity of an error, the
    source [GTS] and the keyword as its code; when the message is empty the
    constructor of the diagnostic throws, and so does
    [validationErrorsToDiagnostics], whatever errors follow. *)
Theorem diagnostic_defaults_to_start document error :
  stripTrailingSlash (stripLeadingSlash (instancePath error)) = [] ->
  keywordIs error "schema" && hasParam (js "schemaId") (params error) = false ->
  keywordIs error "additionalProperties"
  && hasParam (js "additionalProperty") (params error) = false ->
  keywordIs error "required" && hasParam (js "missingProperty") (params error) = false ->
  locate document error = Returned None
  /\ (message error <> [] ->
        validationErrorsToDiagnostics [error] document
        = Returned [mkDiagnostic (mkRange (mkPosition 0 0) (mkPosition 0 1))
                                 (message error) SeverityError
                                 (Some (js "GTS")) (Some (keyword error))])
  /\ (message error = [] ->
        forall rest,
          validationErrorsToDiagnostics (error :: rest) document
          = Thrown (js "message must be set")).
Proof.
  intros Hpath Hschema Hadd Hreq.
  assert (Hloc : locate document error = Returned None).
  { unfold locate, findErrorPosition. rewrite Hpath.
    assert (Hrest : locateAdditional document document [] error = Returned None).
    { unfold locateAdditional. rewrite Hadd. unfold locateRequired. by rewrite Hreq. }
    destruct (keywordIs error "schema"); [|done].
    cbn [andb] in Hschema. by rewrite Hschema. }
  split; [done|]. split.
  - intros Hmessage. cbn [validationErrorsToDiagnostics]. unfold errorDiagnostic.
    rewrite Hloc. unfold newDiagnostic. by destruct (message error).
  - intros Hmessage rest. cbn [validationErrorsToDiagnostics]. unfold errorDiagnostic.
    rewrite Hloc. unfold newDiagnostic. by rewrite Hmessage.
Qed.

Lemma diagnostic_defaults_to_start_witness :
  let document := jsonText "{'age': 'old'}" in
  let error := mkError (js "/") (js "#/minProperties") (js "minProperties")
                       (js "must NOT have fewer than 2 properties")
                       [(js "limit", JNum 2)] None in
  locate document error = Returned None
  /\ validationErrorsToDiagnostics [error] document
     = Returned [mkDiagnostic (mkRange (mkPosition 0 0) (mkPosition 0 1))
                              (js "must NOT have fewer than 2 properties") SeverityError
                              (Some (js "GTS")) (Some (js "minProperties"))].
Proof.
  intros document error.
  destruct (diagnostic_defaults_to_start document error eq_refl eq_refl eq_refl eq_refl)
    as (Hlocate & Hdiagnostic & _).
  split; [exact Hlocate|]. apply Hdiagnostic. discriminate.
Defined.

(** ** Invalidation twice, and the latest ingestion of an identifier *)

Lemma registry_eq r1 r2 :
  jsonObjs r1 = jsonObjs r2 -> jsonSchemas r1 = jsonSchemas r2 ->
  jsonFiles r1 = jsonFiles r2 -> invalidFiles r1 = invalidFiles r2 ->
  jsonFileObjs r1 = jsonFileObjs r2 -> jsonFileSchemas r1 = jsonFileSchemas r2 ->
  fetchCache r1 = fetchCache r2 -> defaultFilePath r1 = defaultFilePath r2 ->
  r1 = r2.
Proof. destruct r1, r2. simpl. by intros -> -> -> -> -> -> -> ->. Qed.

Lemma invalidateFile_defaultFilePath p r :
  defaultFilePath (invalidateFile p r) = defaultFilePath r.
Proof.
  unfold invalidateFile. simpl.
  destruct (jsonFileObjs r !! p); simpl; destruct (jsonFileSchemas r !! p); done.
Qed.

Lemma purge_twice (p : jsstring) (index : gmap jsstring Entity)
    (perFile : gmap jsstring (list Entity)) :
  purgeIndex p (purgeIndex p index perFile) (purgePerFile p perFile)
  = purgeIndex p index perFile
  /\ purgePerFile p (purgePerFile p perFile) = purgePerFile p perFile.
Proof.
  unfold purgeIndex, purgePerFile.
  destruct (perFile !! p) as [l|] eqn:E.
  - rewrite lookup_insert_eq. split; [done|]. apply insert_insert_eq.
  - by rewrite E.
Qed.

(** Invalidating a file twice is invalidating it once. *)
Theorem invalidateFile_idempotent p r :
  invalidateFile p (invalidateFile p r) = invalidateFile p r.
Proof.
  destruct (invalidateFile_fields p (invalidateFile p r))
    as (Ef & Ei & Eo & Efo & Es & Efs & Ec).
  destruct (invalidateFile_fields p r) as (Ef' & Ei' & Eo' & Efo' & Es' & Efs' & Ec').
  destruct (purge_twice p (jsonObjs r) (jsonFileObjs r)) as [Ho2 Hfo2].
  destruct (purge_twice p (jsonSchemas r) (jsonFileSchemas r)) as [Hs2 Hfs2].
  apply registry_eq.
  - by rewrite Eo, Eo', Efo', Ho2.
  - by rewrite Es, Es', Efs', Hs2.
  - rewrite Ef, Ef'. apply delete_delete_eq.
  - rewrite Ei, Ei'. apply delete_delete_eq.
  - by rewrite Efo, Efo', Hfo2.
  - by rewrite Efs, Efs', Hfs2.
  - by rewrite Ec, Ec'.
  - by rewrite !invalidateFile_defaultFilePath.
Qed.

Section LatestWins.
Context `{C : Collaborators}.

Lemma processFileContent_single_object p nm c cfg r k :
  isArray c = false ->
  (checkFile p nm c = None \/ exists errs, checkFile p nm c = Some (mkResult true errs)) ->
  recognize cfg (newJsonFile p nm c) None c = Returned (Some k) ->
  rec_isGtsEntity k = true -> rec_class k <> IsJsonSchema ->
  let e := mkEntity (rec_id k) (rec_class k) (newJsonFile p nm c) None c
                    (rec_schemaId k) (rec_gtsRefs k) (rec_isGtsEntity k) None in
  let r0 := invalidateFile p r in
  (processFileContent p nm c cfg r).1
  = setJsonFiles (<[p := newJsonFile p nm c]> (jsonFiles r0))
      (setJsonFileObjs (<[p := default [] (jsonFileObjs r0 !! p) ++ [e]]> (jsonFileObjs r0))
         (setJsonObjs (<[rec_id k := e]> (jsonObjs r0)) r0)).
Proof.
  intros Harr Hcheck Hrec Hgts Hclass e r0.
  assert (Hnorm : normalizeToArray c = [c]) by (by destruct c).
  assert (Hnone : jsonFiles r0 !! p = None).
  { unfold r0. destruct (invalidateFile_fields p r) as (-> & _). apply lookup_delete_eq. }
  assert (Hpe : processEntities p (newJsonFile p nm c) cfg [c] 0 false r0
                = (setJsonFileObjs
                     (<[p := default [] (jsonFileObjs r0 !! p) ++ [e]]> (jsonFileObjs r0))
                     (setJsonObjs (<[rec_id k := e]> (jsonObjs r0)) r0), Returned true)).
  { cbn [processEntities]. cbn [file_content newJsonFile]. rewrite Harr.
    unfold createEntity. rewrite Hrec. cbv beta iota. fold e.
    assert (Hge : isGtsEntity e = true) by exact Hgts. rewrite Hge.
    unfold indexEntity.
    assert (Hce : class e = rec_class k) by done. rewrite Hce.
    by destruct (rec_class k). }
  unfold processFileContent. fold r0. rewrite Hnorm, Hpe.
  cbn [file_validation newJsonFile].
  assert (Hbranch : negb (bool_decide (is_Some (jsonFiles r0 !! p))) = true).
  { rewrite Hnone. by rewrite bool_decide_eq_false_2 by (by intros []). }
  destruct Hcheck as [-> | [errs ->]]; simpl; by rewrite Hbranch.
Qed.

(** The latest ingestion of an identifier wins.  When a file that is not
    skipped passes the check of its content, holds a single value and that
    value is recognised as an object entity, then after the ingestion of
    the file the object index maps the identifier to the entity made from
    that value, owned by that file, without array position and validated,
    whatever the registry held under the identifier before; and the file
    is recorded in [jsonFiles] and not in [invalidFiles]. *)
Theorem ingest_object_replaces g p nm c cfg r k :
  inToolingDirectory p = false ->
  isArray c = false ->
  (checkFile p nm c = None \/ exists errs, checkFile p nm c = Some (mkResult true errs)) ->
  recognize (getGtsConfig cfg) (newJsonFile p nm c) None c = Returned (Some k) ->
  rec_isGtsEntity k = true -> rec_class k <> IsJsonSchema ->
  let r' := ingestFiles g [mkInput p nm c] cfg r in
  (exists e,
     jsonObjs r' !! rec_id k = Some e
     /\ id e = rec_id k /\ file e = newJsonFile p nm c /\ content e = c
     /\ listSequence e = None /\ is_Some (validation e))
  /\ jsonFiles r' !! p = Some (newJsonFile p nm c)
  /\ invalidFiles r' !! p = None.
Proof.
  intros Htool Harr Hcheck Hrec Hgts Hclass r'.
  assert (Hr' : r' = validateEntities g
                  (processFileContent p nm c (getGtsConfig cfg) r).1).
  { unfold r', ingestFiles, processFiles. simpl. by rewrite Htool. }
  rewrite (processFileContent_single_object p nm c (getGtsConfig cfg) r k) in Hr' by done.
  rewrite Hr'. unfold validateEntities. cbn [jsonObjs jsonFiles invalidFiles setJsonObjs
    setJsonSchemas setJsonFiles setJsonFileObjs].
  split; [|split].
  - rewrite lookup_fmap, lookup_insert_eq. eexists. split; [reflexivity|].
    simpl. repeat split; by eexists.
  - apply lookup_insert_eq.
  - destruct (invalidateFile_fields p r) as (_ & -> & _). apply lookup_delete_eq.
Qed.
End LatestWins.

Lemma ingest_object_replaces_witness :
  let r := run (C := demo) plainHost [Ingest (C := demo) [fileA] demoConfig] in
  let r' := ingestFiles (C := demo) plainHost [fileB] demoConfig r in
  (exists e,
     jsonObjs r' !! js "x" = Some e
     /\ id e = js "x"
     /\ file e = newJsonFile (C := demo) (js "b.json") (js "b.json") (obj [("id", str "x")])
     /\ content e = obj [("id", str "x")]
     /\ listSequence e = None /\ is_Some (validation e))
  /\ jsonFiles r' !! js "b.json"
     = Some (newJsonFile (C := demo) (js "b.json") (js "b.json") (obj [("id", str "x")]))
  /\ invalidFiles r' !! js "b.json" = None.
Proof.
  intros r r'.
  apply (ingest_object_replaces (C := demo) plainHost (js "b.json") (js "b.json")
           (obj [("id", str "x")]) demoConfig r
           (mkRecognized (js "x") IsJsonObj None [] true)).
  - reflexivity.
  - reflexivity.
  - right. eexists. reflexivity.
  - reflexivity.
  - reflexivity.
  - discriminate.
Defined.
